(** * Haldane model: band structure and Berry curvature pipeline

    A shallow embedding of [functions.py], [graphineHaldaneModel.py] and
    [berryCurve.py].

    Conventions of the embedding
    - Python floats are idealised as rationals ([Q]); complex numbers are
      pairs of rationals.  Constants such as [np.sqrt(3)] and [np.pi] are the
      exact rational values of the corresponding binary64 floats.
    - [SimpleNamespace] objects live in a heap and are passed by reference, so
      that the in-place update [pars.__dict__.update(values)] is visible.
    - Python exceptions are values of type [exn]; a raising computation keeps
      the heap it has reached.
    - kwant and numpy are external libraries.  Their documented behaviour is
      modelled where a function of the repository depends on it; routines
      whose numerical content plays no role ([cmath.exp],
      [np.linalg.eigvalsh], the geometric search behind [lat.neighbors()] and
      the site enumeration of finite cross-sections) are section variables. *)

From Stdlib Require Import String Ascii ZArith QArith Qabs Bool Arith Lia Lqa
  Sorting.Sorted Sorting.Permutation List.
Import ListNotations.

Local Open Scope string_scope.
Local Open Scope list_scope.
Local Open Scope nat_scope.

(** ** Exceptions and outcomes *)

Inductive exn : Type :=
| ValueError (msg : string)
| RuntimeError (msg : string)
| AttributeError (attr : string)
| UnboundLocalError (var : string)
| IndexError
| TypeError
| LinAlgError.

Inductive outcome (A : Type) : Type :=
| Ok (a : A)
| Raise (e : exn).
Arguments Ok {A} a.
Arguments Raise {A} e.

Definition obind {A B} (o : outcome A) (f : A -> outcome B) : outcome B :=
  match o with
  | Ok a => f a
  | Raise e => Raise e
  end.

Declare Scope outcome_scope.
Delimit Scope outcome_scope with out.
Notation "x <- c ;; k" := (obind c (fun x => k))
  (at level 61, c at next level, right associativity) : outcome_scope.

(** Sequential evaluation of a list comprehension whose body may raise. *)
Fixpoint omap {A B} (f : A -> outcome B) (l : list A) : outcome (list B) :=
  match l with
  | [] => Ok []
  | a :: l' =>
      match f a with
      | Raise e => Raise e
      | Ok b => match omap f l' with
                | Raise e => Raise e
                | Ok bs => Ok (b :: bs)
                end
      end
  end.

(** ** Numbers *)

Definition np_sqrt3 : Q := 3900231685776981 # 2251799813685248.
Definition np_pi : Q := 884279719003555 # 281474976710656.

(** Python truthiness of a float, as used by [any(...)]. *)
Definition truthy (x : Q) : bool := negb (Qeq_bool x 0).

Record C : Type := mkC { Re : Q; Im : Q }.

Definition C0 : C := mkC 0 0.
Definition Ci : C := mkC 0 1.
Definition ofQ (x : Q) : C := mkC x 0.
Definition Cadd (z w : C) : C := mkC (Re z + Re w) (Im z + Im w).
Definition Cmul (z w : C) : C :=
  mkC (Re z * Re w - Im z * Im w) (Re z * Im w + Im z * Re w).
Definition Cconj (z : C) : C := mkC (Re z) (- Im z).

(** Python's [sum]: left fold starting from [0]. *)
Definition Csum (l : list C) : C := fold_left Cadd l C0.

Definition cmatrix := list (list C).

Definition conj_transpose_entry (H : cmatrix) (i j : nat) : C :=
  Cconj (nth i (nth j H []) C0).

(** [H.conj().T] for an [n] x [n] matrix. *)
Definition conj_transpose (n : nat) (H : cmatrix) : cmatrix :=
  map (fun i => map (fun j => conj_transpose_entry H i j) (seq 0 n)) (seq 0 n).

(** ** Parameter bundles

    A field of a [SimpleNamespace] holds a float or a sequence of floats; a
    sequence is what [isinstance(value, collections.Iterable)] accepts. *)

Inductive value : Type :=
| Scalar (x : Q)
| Sequence (xs : list Q).

Definition isIterable (v : value) : bool :=
  match v with
  | Sequence _ => true
  | Scalar _ => false
  end.

(** Python dictionaries keep insertion order; assigning to an existing key
    keeps its position. *)
Definition dict (V : Type) := list (string * V).

Fixpoint dict_get {V} (d : dict V) (key : string) : option V :=
  match d with
  | [] => None
  | (k, v) :: d' => if String.eqb k key then Some v else dict_get d' key
  end.

Definition dict_mem {V} (d : dict V) (key : string) : bool :=
  match dict_get d key with
  | Some _ => true
  | None => false
  end.

Fixpoint dict_set {V} (d : dict V) (key : string) (v : V) : dict V :=
  match d with
  | [] => [(key, v)]
  | (k, v') :: d' =>
      if String.eqb k key then (k, v) :: d' else (k, v') :: dict_set d' key v
  end.

(** [d.update(other)] *)
Definition dict_update {V} (d other : dict V) : dict V :=
  fold_left (fun acc kv => dict_set acc (fst kv) (snd kv)) other d.

Definition namespace := dict value.

(** Attribute access [p.name] inside a value function: the attribute must
    exist and, when the Hamiltonian is evaluated, hold a number. *)
Definition getattr (pars : namespace) (name : string) : outcome Q :=
  match dict_get pars name with
  | None => Raise (AttributeError name)
  | Some (Scalar x) => Ok x
  | Some (Sequence _) => Raise TypeError
  end.

(** ** The heap of namespace objects *)

Definition ref := nat.
Definition heap := list namespace.

Definition M (A : Type) : Type := heap -> heap * outcome A.

Definition ret {A} (a : A) : M A := fun h => (h, Ok a).
Definition throw {A} (e : exn) : M A := fun h => (h, Raise e).
Definition bind {A B} (m : M A) (f : A -> M B) : M B :=
  fun h => match m h with
           | (h', Ok a) => f a h'
           | (h', Raise e) => (h', Raise e)
           end.
Definition lift {A} (o : outcome A) : M A := fun h => (h, o).

Declare Scope heap_scope.
Delimit Scope heap_scope with M.
Notation "x <- c ;; k" := (bind c (fun x => k))
  (at level 61, c at next level, right associativity) : heap_scope.
Notation "c ;;; k" := (bind c (fun _ => k))
  (at level 61, right associativity) : heap_scope.

Fixpoint heap_write (h : heap) (r : ref) (d : namespace) : heap :=
  match h, r with
  | [], _ => []
  | _ :: h', O => d :: h'
  | x :: h', S r' => x :: heap_write h' r' d
  end.

(** [SimpleNamespace()] *)
Definition new_namespace : M ref := fun h => (h ++ [[]], Ok (length h)).

(** [r.__dict__] *)
Definition read_dict (r : ref) : M namespace :=
  fun h => match nth_error h r with
           | Some d => (h, Ok d)
           | None => (h, Raise (AttributeError "__dict__"))
           end.

(** [copy(p)]: a new object whose dictionary has the same entries. *)
Definition copy (p : ref) : M ref :=
  fun h => match nth_error h p with
           | Some d => (h ++ [d], Ok (length h))
           | None => (h, Raise (AttributeError "__dict__"))
           end.

(** [r.__dict__.update(values)] *)
Definition update_dict (r : ref) (values : namespace) : M unit :=
  fun h => match nth_error h r with
           | Some d => (heap_write h r (dict_update d values), Ok tt)
           | None => (h, Raise (AttributeError "__dict__"))
           end.

Fixpoint mapM {A B} (f : A -> M B) (l : list A) : M (list B) :=
  match l with
  | [] => ret []
  | a :: l' => (b <- f a ;; bs <- mapM f l' ;; ret (b :: bs))%M
  end.

(** ** numpy: the linear algebra used by the momentum mapping

    Matrices are lists of rows.  [np.linalg.inv] and [np.linalg.lstsq] are
    modelled in exact arithmetic for the only sizes the evaluator produces: a
    2 x 2 Gram matrix and a coefficient matrix with two columns.  Results are
    kept in lowest terms ([Qred]), which does not change their value. *)

Definition vec := list Q.
Definition matrix := list vec.

Definition np_1e_7 : Q := 944473296573929 # 9444732965739290427392.

Definition dot (u v : vec) : Q :=
  Qred (fold_left Qplus (map (fun uv => fst uv * snd uv)%Q (combine u v)) 0%Q).

(** [X.T] for a matrix [X] with [ncols] columns. *)
Definition transpose (ncols : nat) (X : matrix) : matrix :=
  map (fun j => map (fun row => nth j row 0%Q) X) (seq 0 ncols).

(** [X @ Y] where [Y] has [ncols] columns. *)
Definition matmul (ncols : nat) (X Y : matrix) : matrix :=
  map (fun row => map (dot row) (transpose ncols Y)) X.

(** [X @ v] *)
Definition matvec (X : matrix) (v : vec) : vec := map (fun row => dot row v) X.

Definition vsub (u v : vec) : vec :=
  map (fun uv => Qred (fst uv - snd uv)) (combine u v).

(** [np.linalg.inv]: raises [LinAlgError] on a singular matrix. *)
Definition np_linalg_inv (G : matrix) : outcome matrix :=
  match G with
  | [[a; b]; [c; d]] =>
      let det := Qred (a * d - b * c) in
      if Qeq_bool det 0 then Raise LinAlgError
      else Ok [[Qred (d / det); Qred (- b / det)];
               [Qred (- c / det); Qred (a / det)]]
  | _ => Raise LinAlgError
  end.

(** [np.linalg.lstsq(A, b)[:2]] for [A] of shape (M, 2): the least-squares
    solution and the residual array.  As numpy documents, the residual array is
    empty when [M <= N] or when the rank of [A] is below [N]; otherwise it
    holds the squared norm of [b - A @ x].  For a rank-deficient [A] numpy
    returns the solution of minimum norm, which for rank one is
    [A.T @ b / ||A||^2]. *)
Definition np_linalg_lstsq (A : matrix) (b : vec) : outcome (vec * list Q) :=
  let N := 2 in
  let m := length A in
  if negb (m =? length b) then Raise LinAlgError
  else
    let At := transpose N A in
    let Atb := matvec At b in
    match np_linalg_inv (matmul N At A) with
    | Ok Gi =>
        let x := matvec Gi Atb in
        let r := vsub b (matvec A x) in
        Ok (x, if m <=? N then [] else [dot r r])
    | Raise _ =>
        let f := Qred (fold_left Qplus (map (fun row => dot row row) A) 0%Q) in
        Ok (if Qeq_bool f 0 then [0%Q; 0%Q]
            else map (fun y => Qred (y / f)) Atb, [])
    end.

(** ** kwant systems as seen by the evaluator

    The repository builds lattices in the plane, so a system keeps zero, one
    or two translational directions.  [hamiltonian_submatrix syst pars k]
    stands for [syst.hamiltonian_submatrix([pars] + k, sparse=False)] on the
    finalized system (after [kwant.wraparound.wraparound] when there is a
    symmetry). *)

Inductive Symmetry : Type :=
| NoSymmetry
| Translational1 (a1 : vec)
| Translational2 (a1 a2 : vec).

(** [syst.symmetry.periods] *)
Definition periods (s : Symmetry) : list vec :=
  match s with
  | NoSymmetry => []
  | Translational1 a1 => [a1]
  | Translational2 a1 a2 => [a1; a2]
  end.

(** [syst.symmetry.num_directions] *)
Definition num_directions (s : Symmetry) : nat := length (periods s).

Record System : Type := {
  syst_symmetry : Symmetry;
  hamiltonian_submatrix : namespace -> list Q -> outcome cmatrix
}.

(** ** [hamiltonian_array] *)

Record ndarray : Type := { shape : list nat; data : list C }.

Definition matrix_shape (H : cmatrix) : list nat := [length H; length (hd [] H)].

Definition grid := list (string * list Q).

Definition space_dimensionality (s : Symmetry) : nat :=
  match periods s with
  | [] => 0
  | a :: _ => length a
  end.

Definition any (k : list Q) : bool := existsb truthy k.

Definition momentum_to_lattice_1 (dimensionality : nat) (k : list Q)
  : outcome (list Q) :=
  if any (skipn dimensionality k)
  then Raise (ValueError "Dispersion is 1D, but more momenta are provided.")
  else Ok [nth 0 k 0%Q].

Definition momentum_to_lattice_2 (A : matrix) (space_dim : nat) (k : list Q)
  : outcome (list Q) :=
  match np_linalg_lstsq A (firstn space_dim k) with
  | Raise e => Raise e
  | Ok (k', residuals) =>
      if existsb (fun r => negb (Qle_bool (Qabs r) np_1e_7)) residuals
      then Raise (RuntimeError
                    "Requested momentum doesn't correspond to any lattice momentum.")
      else Ok k'
  end.

(** The closure [momentum_to_lattice] chosen by [hamiltonian_array]; its
    construction inverts the Gram matrix of the periods and may raise. *)
Definition make_momentum_to_lattice (s : Symmetry)
  : outcome (list Q -> outcome (list Q)) :=
  let dimensionality := num_directions s in
  if dimensionality =? 0 then Ok (fun _ => Ok [])
  else if length (periods s) =? 1
       then Ok (momentum_to_lattice_1 dimensionality)
       else
         let sd := space_dimensionality s in
         let B := transpose sd (periods s) in
         match np_linalg_inv (matmul dimensionality (transpose dimensionality B) B) with
         | Raise e => Raise e
         | Ok Gi => Ok (momentum_to_lattice_2 (matmul dimensionality B Gi) sd)
         end.

Definition reserved_name_message (key : string) : string :=
  "One of the system parameters is " ++ key
    ++ ", which is reserved for momentum. Please rename it.".

(** The first loop: the sequence-valued fields of [pars]. *)
Definition changing_of_pars (pars : namespace) : dict (list Q) :=
  fold_left (fun changing kv =>
               match snd kv with
               | Sequence xs => dict_set changing (fst kv) xs
               | Scalar _ => changing
               end) pars [].

(** The second loop, over [('k_x', k_x), ('k_y', k_y), ('k_z', k_z)]. *)
Fixpoint add_momenta (ks : list (string * value)) (changing : dict (list Q))
  : outcome (dict (list Q)) :=
  match ks with
  | [] => Ok changing
  | (key, v) :: ks' =>
      if dict_mem changing key
      then Raise (RuntimeError (reserved_name_message key))
      else add_momenta ks' (match v with
                            | Sequence xs => dict_set changing key xs
                            | Scalar _ => changing
                            end)
  end.

(** [sorted(changing.items())]: keys are unique, so the order is that of the
    names. *)
Fixpoint insert_sorted {V} (kv : string * V) (l : list (string * V))
  : list (string * V) :=
  match l with
  | [] => [kv]
  | kv' :: l' =>
      if String.leb (fst kv) (fst kv') then kv :: l
      else kv' :: insert_sorted kv l'
  end.

Definition sorted {V} (l : list (string * V)) : list (string * V) :=
  fold_right insert_sorted [] l.

(** [itertools.product] over the axes: the last axis varies fastest. *)
Fixpoint product (axes : list (list Q)) : list (list Q) :=
  match axes with
  | [] => [[]]
  | xs :: rest => flat_map (fun x => map (cons x) (product rest)) xs
  end.

Definition as_scalar (v : value) : outcome Q :=
  match v with
  | Scalar x => Ok x
  | Sequence _ => Raise TypeError
  end.

(** [values.get(name, default)] *)
Definition values_get (values : dict Q) (name : string) (default : value)
  : outcome Q :=
  match dict_get values name with
  | Some x => Ok x
  | None => as_scalar default
  end.

(** The inner function [hamiltonian], called with the grid point as keyword
    arguments [values]: it writes the grid point into [pars] in place, maps the
    momentum and evaluates the matrix. *)
Definition hamiltonian (syst : System) (mtl : list Q -> outcome (list Q))
    (pars : ref) (k_x k_y k_z : value) (values : dict Q) : M cmatrix :=
  (update_dict pars (map (fun kv => (fst kv, Scalar (snd kv))) values) ;;;
   kx <- lift (values_get values "k_x" k_x) ;;
   ky <- lift (values_get values "k_y" k_y) ;;
   kz <- lift (values_get values "k_z" k_z) ;;
   k <- lift (mtl [kx; ky; kz]) ;;
   d <- read_dict pars ;;
   lift (hamiltonian_submatrix syst d k))%M.

(** [np.array(hamiltonians).reshape(new_shape)] *)
Definition np_array_reshape (hamiltonians : list cmatrix) (new_shape : list nat)
  : outcome ndarray :=
  let flat := concat (map (@concat C) hamiltonians) in
  if length flat =? fold_right Nat.mul 1 new_shape
  then Ok {| shape := new_shape; data := flat |}
  else Raise (ValueError "cannot reshape array").

(** The part of [hamiltonian_array] after the swept axes are known: one
    evaluation when nothing changes, a grid of evaluations otherwise. *)
Definition evaluate_grid (syst : System)
    (momentum_to_lattice : list Q -> outcome (list Q)) (pars : ref)
    (d : namespace) (changing : dict (list Q)) (k_x k_y k_z : value)
    (return_grid : bool) : M (ndarray * option grid) :=
  (match changing with
   | [] =>
       kx <- lift (as_scalar k_x) ;;
       ky <- lift (as_scalar k_y) ;;
       kz <- lift (as_scalar k_z) ;;
       k <- lift (momentum_to_lattice [kx; ky; kz]) ;;
       H <- lift (hamiltonian_submatrix syst d k) ;;
       ret ({| shape := 1 :: matrix_shape H; data := concat H |},
            if return_grid then Some [] else None)
   | _ :: _ =>
       let names := map fst (sorted changing) in
       let values := map snd (sorted changing) in
       hamiltonians <- mapM (fun value =>
                               hamiltonian syst momentum_to_lattice pars
                                           k_x k_y k_z (combine names value))
                            (product values) ;;
       size <- match hamiltonians with
               | [] => throw IndexError
               | H0 :: _ => ret (matrix_shape H0)
               end ;;
       arr <- lift (np_array_reshape hamiltonians
                                     (map (@length Q) values ++ size)) ;;
       ret (arr, if return_grid then Some (combine names values) else None)
   end)%M.

Definition hamiltonian_array (syst : System) (p : option ref)
    (k_x k_y k_z : value) (return_grid : bool) : M (ndarray * option grid) :=
  (p <- match p with
        | None => new_namespace
        | Some r => ret r
        end ;;
   pars <- copy p ;;
   momentum_to_lattice <- lift (make_momentum_to_lattice (syst_symmetry syst)) ;;
   d <- read_dict pars ;;
   changing <- lift (add_momenta [("k_x", k_x); ("k_y", k_y); ("k_z", k_z)]
                                 (changing_of_pars d)) ;;
   evaluate_grid syst momentum_to_lattice pars d changing
                 k_x k_y k_z return_grid)%M.

(** [h_k(syst, p, momentum)]: the first entry of the array. *)
Definition h_k (syst : System) (p : option ref) (momentum : value)
  : M (list C) :=
  (r <- hamiltonian_array syst p momentum (Scalar 0) (Scalar 0) false ;;
   let arr := fst r in
   match shape arr with
   | [] => throw IndexError
   | O :: _ => throw IndexError
   | S _ :: rest => ret (firstn (fold_right Nat.mul 1 rest) (data arr))
   end)%M.

(** ** [spectrum]

    The model follows [spectrum] up to the point where a plotting branch is
    entered.  The arguments that decorate the plot (title, axis labels,
    ticks, limits, [num_bands]) do not influence which branch runs and are
    left out.  The plotting code itself (the holoviews calls, the selection
    of bands by [num_bands], the limits) is not modelled: [Plot n e] records
    that the branch for [n] axes was entered with the energies [e], not that
    the plotting code returns. *)

Record rarray : Type := { rshape : list nat; rdata : list Q }.

Inductive spectrum_result : Type :=
| Energies (energies : rarray)
| Plot (axes : nat) (energies : rarray).

(** [np.linspace(start, stop, num)] *)
Definition np_linspace (start stop : Q) (num : nat) : list Q :=
  match num with
  | 0 => []
  | 1 => [start]
  | _ => map (fun i => start + inject_Z (Z.of_nat i)
                               * ((stop - start) / inject_Z (Z.of_nat (num - 1))))%Q
             (seq 0 num)
  end.

(** The two list comprehensions over [k = [k_x, k_y, k_z]]: a momentum that is
    [None] becomes a grid of [res] points, and the momenta beyond the
    dimensionality of the system are set to [0]. *)
Definition spectrum_momentum (dimensionality res j : nat) (k : option value)
  : value :=
  let i := match k with
           | None => Sequence (np_linspace (- np_pi) np_pi res)
           | Some v => v
           end in
  if j <? dimensionality then i else Scalar 0.

Section Spectrum.

(** [np.linalg.eigvalsh], applied over the two trailing axes. *)
Variable np_linalg_eigvalsh : ndarray -> rarray.

Definition spectrum (syst : System) (p : option ref)
    (k_x k_y k_z : option value) (res : nat) (return_energies : bool)
  : M spectrum_result :=
  (p <- match p with
        | None => new_namespace
        | Some r => ret r
        end ;;
   let dimensionality := num_directions (syst_symmetry syst) in
   let k_x := spectrum_momentum dimensionality res 0 k_x in
   let k_y := spectrum_momentum dimensionality res 1 k_y in
   let k_z := spectrum_momentum dimensionality res 2 k_z in
   r <- hamiltonian_array syst (Some p) k_x k_y k_z true ;;
   variables <- match snd r with
                | Some g => ret g
                | None => throw TypeError
                end ;;
   let hamiltonians := fst r in
   let n := length variables in
   let energies :=
     if (n =? 1) || (n =? 2) then Some (np_linalg_eigvalsh hamiltonians)
     else None in
   if n =? 0 then throw (ValueError "A 0D plot requested")
   else if return_energies
        then match energies with
             | Some e => ret (Energies e)
             | None => throw (UnboundLocalError "energies")
             end
        else if n =? 1
             then match energies with
                  | Some e => ret (Plot 1 e)
                  | None => throw (UnboundLocalError "energies")
                  end
             else if n =? 2
                  then match energies with
                       | Some e => ret (Plot 2 e)
                       | None => throw (UnboundLocalError "energies")
                       end
                  else throw (ValueError "Cannot make 4D plots yet."))%M.

End Spectrum.

(** ** [haldaneModel]: the tight-binding model as a kwant builder *)

Inductive family : Type := sublattice_a | sublattice_b.

Definition family_eqb (f g : family) : bool :=
  match f, g with
  | sublattice_a, sublattice_a | sublattice_b, sublattice_b => true
  | _, _ => false
  end.

Definition tag := (Z * Z)%type.

Definition tag_eqb (x y : tag) : bool :=
  (fst x =? fst y)%Z && (snd x =? snd y)%Z.

(** [kwant.builder.HoppingKind(delta, family_a, family_b)]: the hoppings from
    a site of [family_b] with tag [x] to the site of [family_a] with tag
    [x + delta]. *)
Record HoppingKind : Type := {
  delta : tag;
  family_a : family;
  family_b : family
}.

Definition kind_eqb (k1 k2 : HoppingKind) : bool :=
  tag_eqb (delta k1) (delta k2)
  && family_eqb (family_a k1) (family_a k2)
  && family_eqb (family_b k1) (family_b k2).

(** The same bond traversed in the opposite direction. *)
Definition reverse (k : HoppingKind) : HoppingKind :=
  {| delta := (- fst (delta k), - snd (delta k))%Z;
     family_a := family_b k;
     family_b := family_a k |}.

Definition same_bond (k1 k2 : HoppingKind) : bool :=
  kind_eqb k1 k2 || kind_eqb k1 (reverse k2).

(** The value functions defined inside [haldaneModel]. *)
Inductive hopping_fn : Type := nnHopping | nnnHopping.

Inductive shape_fn : Type :=
| ribbonShapeZigzag (w : Q)
| ribbonShapeArmchair (w : Q)
| everywhere.

Definition ribbonShapeZigzag_holds (w : Q) (pos : Q * Q) : bool :=
  Qle_bool (- (1 # 2) / np_sqrt3 - (1 # 10)) (snd pos)
  && negb (Qle_bool (np_sqrt3 * w / 2 + (1 # 100)) (snd pos)).

Definition ribbonShapeArmchair_holds (w : Q) (pos : Q * Q) : bool :=
  Qle_bool (- 1) (fst pos) && negb (Qle_bool w (fst pos)).

Record Builder : Type := {
  builder_symmetry : Symmetry;
  builder_shape : shape_fn;
  builder_hoppings : list (HoppingKind * hopping_fn)
}.

(** [syst[kind] = fn]: a later assignment replaces the value of a bond that
    was already set, in either direction. *)
Definition set_hopping (hoppings : list (HoppingKind * hopping_fn))
    (kind : HoppingKind) (fn : hopping_fn) : list (HoppingKind * hopping_fn) :=
  filter (fun e => negb (same_bond (fst e) kind)) hoppings ++ [(kind, fn)].

Definition set_hoppings (hoppings : list (HoppingKind * hopping_fn))
    (kinds : list HoppingKind) (fn : hopping_fn) :=
  fold_left (fun acc kind => set_hopping acc kind fn) kinds hoppings.

Definition nnnHoppings_a : list HoppingKind :=
  [ {| delta := (-1, 0)%Z; family_a := sublattice_a; family_b := sublattice_a |};
    {| delta := (0, 1)%Z; family_a := sublattice_a; family_b := sublattice_a |};
    {| delta := (1, -1)%Z; family_a := sublattice_a; family_b := sublattice_a |} ].

Definition nnnHoppings_b : list HoppingKind :=
  [ {| delta := (1, 0)%Z; family_a := sublattice_b; family_b := sublattice_b |};
    {| delta := (0, -1)%Z; family_a := sublattice_b; family_b := sublattice_b |};
    {| delta := (-1, 1)%Z; family_a := sublattice_b; family_b := sublattice_b |} ].

Definition default_pVecs : list vec := [[1; 0]; [1 # 2; np_sqrt3 / 2]]%Q.
Definition default_bAtoms : list vec := [[0; 0]; [0; 1 / np_sqrt3]]%Q.

(** [def onsite(site, p)] *)
Definition onsite (f : family) (pars : namespace) : outcome C :=
  (m <- getattr pars "m" ;;
   Ok (ofQ (if family_eqb f sublattice_a then m else - m)))%out.

(** [def nnHopping(site1, site2, p)] and [def nnnHopping(site1, site2, p)] *)
Definition hopping_value (fn : hopping_fn) (pars : namespace) : outcome C :=
  match fn with
  | nnHopping => (t <- getattr pars "t" ;; Ok (ofQ t))%out
  | nnnHopping => (t_2 <- getattr pars "t_2" ;; Ok (Cmul Ci (ofQ t_2)))%out
  end.

Section Kwant.

(** [cmath.exp(1j * x)] *)
Variable cis : Q -> C.

(** [lat.neighbors()] of [kwant.lattice.general(pVecs, bAtoms)]: the kinds
    of the nearest-neighbour bonds, found by a geometric search. *)
Variable lat_neighbors : list vec -> list vec -> list HoppingKind.

Definition haldaneModel (w : Q) (boundary : string)
    (pVecs bAtoms : list vec) : outcome Builder :=
  if existsb (fun v => negb (length v =? 2)) pVecs
  then Raise (ValueError "haldane model must be 2D")
  else if existsb (fun v => negb (length v =? 2)) bAtoms
  then Raise (ValueError "haldane model must be 2D")
  else
    match pVecs, bAtoms with
    | [a1; a2], [_; _] =>
        let '(sym, shp) :=
          if String.eqb boundary "zigzag"
          then (Translational1 [1; 0]%Q, ribbonShapeZigzag w)
          else if String.eqb boundary "armchair"
               then (Translational1 [0; np_sqrt3]%Q, ribbonShapeArmchair w)
               else (Translational2 a1 a2, everywhere) in
        let h0 := set_hoppings [] (lat_neighbors pVecs bAtoms) nnHopping in
        let h1 := set_hoppings h0 nnnHoppings_a nnnHopping in
        let h2 := set_hoppings h1 nnnHoppings_b nnnHopping in
        Ok {| builder_symmetry := sym;
              builder_shape := shp;
              builder_hoppings := h2 |}
    | _, _ => Raise (ValueError "lattice must have two primitive vectors and two basis atoms")
    end.

(** *** [kwant.wraparound.wraparound(syst).finalized()]

    A site is a sublattice and an integer tag.  The sites of the
    fundamental domain and the map [which], giving the symmetry domain of a
    site together with its representative in the fundamental domain, are
    the geometry of a builder.  For the bulk system they are immediate; for
    a ribbon they result from kwant's flood fill of the shape function. *)

Definition site := (family * tag)%type.

Definition site_eqb (s r : site) : bool :=
  family_eqb (fst s) (fst r) && tag_eqb (snd s) (snd r).

Record Geometry : Type := {
  fd_sites : list site;
  which : site -> list Z * site
}.

Variable cross_section : shape_fn -> Symmetry -> Geometry.

Definition bulk_geometry : Geometry :=
  {| fd_sites := [(sublattice_a, (0, 0)%Z); (sublattice_b, (0, 0)%Z)];
     which := fun s => ([fst (snd s); snd (snd s)], (fst s, (0, 0)%Z)) |}.

Definition geometry (b : Builder) : Geometry :=
  match builder_shape b with
  | everywhere => bulk_geometry
  | shp => cross_section shp (builder_symmetry b)
  end.

Fixpoint index_of (s : site) (l : list site) : option nat :=
  match l with
  | [] => None
  | r :: l' => if site_eqb r s then Some 0
               else option_map S (index_of s l')
  end.

(** A bond of the wrapped system: matrix indices of its two ends, the
    symmetry domain that the source site was brought back from, and the
    value function. *)
Record bond : Type := {
  bond_a : nat;
  bond_b : nat;
  bond_domain : list Z;
  bond_fn : hopping_fn
}.

(** The hoppings a [HoppingKind] generates: for every site [a] of
    [family_a], the site of [family_b] at [a.tag - delta], when it belongs
    to the system. *)
Definition bonds_of_kind (g : Geometry) (e : HoppingKind * hopping_fn)
  : list bond :=
  let kind := fst e in
  flat_map
    (fun a =>
       if family_eqb (fst a) (family_a kind)
       then
         let b := (family_b kind,
                   (fst (snd a) - fst (delta kind),
                    snd (snd a) - snd (delta kind))%Z) in
         let '(b_dom, b_wa) := which g b in
         match index_of a (fd_sites g), index_of b_wa (fd_sites g) with
         | Some i, Some j =>
             [{| bond_a := i; bond_b := j;
                 bond_domain := b_dom; bond_fn := snd e |}]
         | _, _ => []
         end
       else [])
    (fd_sites g).

Definition bonds (g : Geometry) (hoppings : list (HoppingKind * hopping_fn))
  : list bond :=
  flat_map (bonds_of_kind g) hoppings.

(** [ta.dot(elem, k)] for an integer domain [elem]. *)
Definition dot_domain (elem : list Z) (k : list Q) : Q :=
  dot (map inject_Z elem) k.

(** [bind_hopping] and [bind_hopping_as_site]: the value of a bond picks up
    the phase [exp(1j * dot(elem, k))] when the bond crosses domains. *)
Definition bond_value (bd : bond) (pars : namespace) (k : list Q)
  : outcome (nat * nat * C) :=
  (v <- hopping_value (bond_fn bd) pars ;;
   let wrapped := (bond_a bd =? bond_b bd)
                  || existsb (fun z => negb (z =? 0)%Z) (bond_domain bd) in
   let pv := if wrapped
             then Cmul (cis (dot_domain (bond_domain bd) k)) v
             else v in
   Ok (bond_a bd, bond_b bd, pv))%out.

(** The summands of the matrix entry [(i, j)]: the onsite value on the
    diagonal, and for every bond its value at [(a, b)] and the Hermitian
    conjugate at [(b, a)]; a bond wrapped onto a single site contributes
    [pv + herm_conj(pv)] to the diagonal. *)
Definition bond_terms (i j : nat) (b : nat * nat * C) : list C :=
  let '(a, b', pv) := b in
  if a =? b'
  then if (i =? a) && (j =? a) then [Cadd pv (Cconj pv)] else []
  else if (i =? a) && (j =? b') then [pv]
       else if (i =? b') && (j =? a) then [Cconj pv]
            else [].

Definition entry_terms (onsites : list C) (bs : list (nat * nat * C))
    (i j : nat) : list C :=
  (if i =? j then [nth i onsites C0] else []) ++ flat_map (bond_terms i j) bs.

Definition assemble (n : nat) (onsites : list C) (bs : list (nat * nat * C))
  : cmatrix :=
  map (fun i => map (fun j => Csum (entry_terms onsites bs i j)) (seq 0 n))
      (seq 0 n).

Definition wrapped_hamiltonian (b : Builder) (pars : namespace) (k : list Q)
  : outcome cmatrix :=
  let g := geometry b in
  (onsites <- omap (fun s => onsite (fst s) pars) (fd_sites g) ;;
   bs <- omap (fun bd => bond_value bd pars k) (bonds g (builder_hoppings b)) ;;
   Ok (assemble (length (fd_sites g)) onsites bs))%out.

Definition finalized (b : Builder) : System :=
  {| syst_symmetry := builder_symmetry b;
     hamiltonian_submatrix := wrapped_hamiltonian b |}.

End Kwant.

(** ** Berry curvature *)

Section BerryCurvature.

(** The number of bands of a finalized system and the link-variable
    curvature of band [n] on the plaquette spanned by the four neighbours of
    a grid point: numerical routines whose values play no role here. *)
Variable num_bands : System -> nat.
Variable plaquette_curvature :
  System -> namespace -> Q * Q -> Q * Q -> Q * Q -> Q * Q -> nat -> Q.

(** Modelled from the spec: [berryCurvature] is imported from [functions]
    by [berryCurve.py] but its definition is not part of the sources.  The
    spec gives its contract: for every interior grid point [(i, j)] and
    every band, a curvature computed from the eigenvectors at the four
    neighbours [(i-1, j)], [(i+1, j)], [(i, j-1)], [(i, j+1)]; boundary
    points are left out. *)
Definition berryCurvature (syst : System) (p : namespace) (k_x k_y : list Q)
  : list (list (list Q)) :=
  map (fun i =>
         map (fun j =>
                map (plaquette_curvature syst p
                       (nth (i - 1) k_x 0%Q, nth j k_y 0%Q)
                       (nth (i + 1) k_x 0%Q, nth j k_y 0%Q)
                       (nth i k_x 0%Q, nth (j - 1) k_y 0%Q)
                       (nth i k_x 0%Q, nth (j + 1) k_y 0%Q))
                    (seq 0 (num_bands syst)))
             (seq 1 (length k_y - 2)))
      (seq 1 (length k_x - 2)).

End BerryCurvature.

(** ** Concrete instances used in examples *)

(** A rational point of the unit circle standing for [exp(1j * x)]: the
    Cayley map of [x / 2].  It is exact at [x = 0]. *)
Definition cis_cayley (x : Q) : C :=
  let u := (x / 2)%Q in
  mkC ((1 - u * u) / (1 + u * u)) (2 * u / (1 + u * u)).

(** The nearest-neighbour kinds kwant reports for the honeycomb lattice. *)
Definition honeycomb_neighbors (_ _ : list vec) : list HoppingKind :=
  [ {| delta := (0, 1)%Z; family_a := sublattice_a; family_b := sublattice_b |};
    {| delta := (0, 0)%Z; family_a := sublattice_a; family_b := sublattice_b |};
    {| delta := (-1, 1)%Z; family_a := sublattice_a; family_b := sublattice_b |} ].

(** The position of a site of the default honeycomb lattice:
    [tag @ prim_vecs + offset]. *)
Definition default_pos (s : site) : Q * Q :=
  let i := inject_Z (fst (snd s)) in
  let j := inject_Z (snd (snd s)) in
  let offset := match fst s with
                | sublattice_a => 0%Q
                | sublattice_b => (1 / np_sqrt3)%Q
                end in
  (i * 1 + j * (1 # 2), i * 0 + j * (np_sqrt3 / 2) + offset)%Q.

Definition shape_holds (shp : shape_fn) (pos : Q * Q) : bool :=
  match shp with
  | ribbonShapeZigzag w => ribbonShapeZigzag_holds w pos
  | ribbonShapeArmchair w => ribbonShapeArmchair_holds w pos
  | everywhere => true
  end.

(** The cross-section of a ribbon that is periodic along the first
    primitive vector: of the sites with tags [(0, j)], [-rows <= j <= rows],
    those that satisfy the shape function.  For the zigzag ribbon of width 2
    these are six sites. *)
Definition strip_cross_section (rows : nat) (shp : shape_fn) (_ : Symmetry)
  : Geometry :=
  {| fd_sites :=
       filter (fun s => shape_holds shp (default_pos s))
              (flat_map (fun r =>
                           let j := (Z.of_nat r - Z.of_nat rows)%Z in
                           [(sublattice_a, (0, j)%Z); (sublattice_b, (0, j)%Z)])
                        (seq 0 (2 * rows + 1)));
     which := fun s => ([fst (snd s)], (fst s, (0, snd (snd s))%Z)) |}.

Definition haldane_bulk : outcome Builder :=
  haldaneModel honeycomb_neighbors 20 "infinite" default_pVecs default_bAtoms.

Definition haldane_zigzag : outcome Builder :=
  haldaneModel honeycomb_neighbors 2 "zigzag" default_pVecs default_bAtoms.

Definition finalize (o : outcome Builder) : System :=
  match o with
  | Ok b => finalized cis_cayley (strip_cross_section 2) b
  | Raise _ => {| syst_symmetry := NoSymmetry;
                  hamiltonian_submatrix := fun _ _ => Ok [] |}
  end.

(** * Properties *)

(** ** Outcomes and the heap monad *)

Lemma omap_length {A B} (f : A -> outcome B) (l : list A) (bs : list B) :
  omap f l = Ok bs -> length bs = length l.
Proof.
  revert bs; induction l as [|a l IH]; simpl; intros bs H.
  - inversion H; reflexivity.
  - destruct (f a); [|discriminate].
    destruct (omap f l); [|discriminate].
    inversion H; subst; simpl; f_equal; apply IH; reflexivity.
Qed.

Lemma omap_total {A B} (f : A -> outcome B) (l : list A) :
  (forall a, In a l -> exists b, f a = Ok b) -> exists bs, omap f l = Ok bs.
Proof.
  induction l as [|a l IH]; simpl; intros H.
  - eexists; reflexivity.
  - destruct (H a (or_introl eq_refl)) as [b ->].
    destruct IH as [bs ->]; [intros; apply H; right; assumption|].
    eexists; reflexivity.
Qed.

Lemma omap_Forall {A B} (P : B -> Prop) (f : A -> outcome B) (l : list A) bs :
  (forall a b, f a = Ok b -> P b) -> omap f l = Ok bs -> Forall P bs.
Proof.
  intros Hf; revert bs; induction l as [|a l IH]; simpl; intros bs H.
  - inversion H; constructor.
  - destruct (f a) eqn:Ea; [|discriminate].
    destruct (omap f l); [|discriminate].
    inversion H; subst; constructor; eauto.
Qed.

(** ** C1: the shape of the Berry curvature array *)

Section BerryShape.

Variable num_bands : System -> nat.
Variable plaquette_curvature :
  System -> namespace -> Q * Q -> Q * Q -> Q * Q -> Q * Q -> nat -> Q.

Let engine := berryCurvature num_bands plaquette_curvature.

(** C1.  For a momentum grid of [length k_x] by [length k_y] points (in
  particular N by N) the Berry curvature engine returns an array with
  [length k_x - 2] rows, each of [length k_y - 2] cells, each cell holding
  one real value per band: the values at the interior grid points only. *)
Theorem berryCurvature_shape (syst : System) (p : namespace) (k_x k_y : list Q) :
length (engine syst p k_x k_y) = length k_x - 2
/\ Forall (fun row => length row = length k_y - 2) (engine syst p k_x k_y)
/\ Forall (Forall (fun cell => length cell = num_bands syst))
          (engine syst p k_x k_y).
Proof.
unfold engine, berryCurvature.
split; [|split].
- rewrite length_map, length_seq; reflexivity.
- apply Forall_forall; intros row Hrow.
  apply in_map_iff in Hrow as [i [<- _]].
  rewrite length_map, length_seq; reflexivity.
- apply Forall_forall; intros row Hrow.
  apply in_map_iff in Hrow as [i [<- _]].
  apply Forall_forall; intros cell Hcell.
  apply in_map_iff in Hcell as [j [<- _]].
  rewrite length_map, length_seq; reflexivity.
Qed.

End BerryShape.

(** ** C8: the next-nearest-neighbour bonds of the model *)

Definition is_nnn (e : HoppingKind * hopping_fn) : bool :=
  match snd e with
  | nnnHopping => true
  | nnHopping => false
  end.

Lemma Forall_filter_keep {A} (P : A -> Prop) (f : A -> bool) (l : list A) :
  Forall P l -> Forall P (filter f l).
Proof.
  rewrite !Forall_forall; intros H x Hx.
  apply filter_In in Hx as [Hx _]; auto.
Qed.

Lemma set_hoppings_values (fn : hopping_fn) (kinds : list HoppingKind) :
  forall h, Forall (fun e => snd e = fn) h ->
            Forall (fun e => snd e = fn) (set_hoppings h kinds fn).
Proof.
  unfold set_hoppings.
  induction kinds as [|k kinds IH]; simpl; intros h Hh; [assumption|].
  apply IH. unfold set_hopping.
  apply Forall_app; split.
  - apply Forall_filter_keep; assumption.
  - repeat constructor.
Qed.

Lemma filter_is_nnn_nil (l : list (HoppingKind * hopping_fn)) :
  Forall (fun e => snd e = nnHopping) l -> filter is_nnn l = [].
Proof.
  induction 1 as [|e l He _ IH]; simpl; [reflexivity|].
  unfold is_nnn at 1; rewrite He; assumption.
Qed.

Lemma nnn_after_assignments (h0 : list (HoppingKind * hopping_fn)) :
  Forall (fun e => snd e = nnHopping) h0 ->
  map fst (filter is_nnn
             (set_hoppings (set_hoppings h0 nnnHoppings_a nnnHopping)
                           nnnHoppings_b nnnHopping))
  = nnnHoppings_a ++ nnnHoppings_b.
Proof.
  intros H0.
  unfold set_hoppings, nnnHoppings_a, nnnHoppings_b; simpl fold_left.
  unfold set_hopping.
  repeat (rewrite filter_app; simpl).
  rewrite filter_is_nnn_nil; [reflexivity|].
  repeat apply Forall_filter_keep; assumption.
Qed.

(** C8.  Whatever the boundary and the lattice, the bonds of the built model
    that carry the next-nearest-neighbour value are exactly six, in this
    order: offsets (-1,0), (0,1), (1,-1) from sublattice A to sublattice A and
    offsets (1,0), (0,-1), (-1,1) from sublattice B to sublattice B; the value
    on them is [1j * t_2], whose real part vanishes. *)
Theorem haldaneModel_nnn_bonds (lat_neighbors : list vec -> list vec -> list HoppingKind)
    (w : Q) (boundary : string) (pVecs bAtoms : list vec) (b : Builder) :
  haldaneModel lat_neighbors w boundary pVecs bAtoms = Ok b ->
  map fst (filter is_nnn (builder_hoppings b))
  = [ {| delta := (-1, 0)%Z; family_a := sublattice_a; family_b := sublattice_a |};
      {| delta := (0, 1)%Z; family_a := sublattice_a; family_b := sublattice_a |};
      {| delta := (1, -1)%Z; family_a := sublattice_a; family_b := sublattice_a |};
      {| delta := (1, 0)%Z; family_a := sublattice_b; family_b := sublattice_b |};
      {| delta := (0, -1)%Z; family_a := sublattice_b; family_b := sublattice_b |};
      {| delta := (-1, 1)%Z; family_a := sublattice_b; family_b := sublattice_b |} ]
  /\ Forall (fun k => family_a k = family_b k)
            (map fst (filter is_nnn (builder_hoppings b)))
  /\ forall (pars : namespace) (t_2 : Q),
       getattr pars "t_2" = Ok t_2 ->
       hopping_value nnnHopping pars = Ok (Cmul Ci (ofQ t_2))
       /\ (Re (Cmul Ci (ofQ t_2)) == 0)%Q
       /\ (Im (Cmul Ci (ofQ t_2)) == t_2)%Q.
Proof.
  intros Hb.
  assert (map fst (filter is_nnn (builder_hoppings b))
          = nnnHoppings_a ++ nnnHoppings_b) as Hsix.
  { unfold haldaneModel in Hb.
    destruct (existsb (fun v => negb (length v =? 2)) pVecs); [discriminate|].
    destruct (existsb (fun v => negb (length v =? 2)) bAtoms); [discriminate|].
    destruct pVecs as [|a1 [|a2 [|? ?]]]; try discriminate.
    destruct bAtoms as [|b1 [|b2 [|? ?]]]; try discriminate.
    destruct (String.eqb boundary "zigzag");
      [|destruct (String.eqb boundary "armchair")];
      inversion Hb; subst b; simpl builder_hoppings;
      apply nnn_after_assignments, set_hoppings_values; constructor. }
  rewrite Hsix.
  split; [reflexivity|split].
  - repeat constructor.
  - intros pars t_2 Ht. simpl. rewrite Ht. simpl.
    split; [reflexivity|split; ring].
Qed.

Lemma haldaneModel_nnn_bonds_witness :
  haldane_bulk
  = Ok {| builder_symmetry := Translational2 [1; 0]%Q [1 # 2; np_sqrt3 / 2]%Q;
          builder_shape := everywhere;
          builder_hoppings :=
            map (fun k => (k, nnHopping)) (honeycomb_neighbors [] [])
            ++ map (fun k => (k, nnnHopping)) (nnnHoppings_a ++ nnnHoppings_b) |}
  /\ map fst (filter is_nnn
                (map (fun k => (k, nnHopping)) (honeycomb_neighbors [] [])
                 ++ map (fun k => (k, nnnHopping)) (nnnHoppings_a ++ nnnHoppings_b)))
     = nnnHoppings_a ++ nnnHoppings_b.
Proof.
  split; [reflexivity|].
  exact (proj1 (haldaneModel_nnn_bonds honeycomb_neighbors 20 "infinite"
                  default_pVecs default_bAtoms _ eq_refl)).
Defined.

(** ** The heap: what a call to [hamiltonian_array] touches *)

Lemma nth_error_snoc {A} (h : list A) (x : A) :
  nth_error (h ++ [x]) (length h) = Some x.
Proof.
  rewrite nth_error_app2 by lia. rewrite Nat.sub_diag. reflexivity.
Qed.

Lemma nth_error_snoc_old {A} (h : list A) (x y : A) (r : nat) :
  nth_error h r = Some y -> nth_error (h ++ [x]) r = Some y.
Proof.
  intros H. rewrite nth_error_app1; [assumption|].
  apply nth_error_Some. congruence.
Qed.

Lemma heap_write_snoc (h : heap) (x y : namespace) :
  heap_write (h ++ [x]) (length h) y = h ++ [y].
Proof.
  induction h as [|a h IH]; simpl; [reflexivity|]. rewrite IH. reflexivity.
Qed.

(** The beginning of [hamiltonian_array], up to the point where the swept
    axes are known: the bundle is copied to a fresh object and the caller's
    object is only read. *)
Lemma hamiltonian_array_start (syst : System) (h : heap) (p : ref)
    (d : namespace) (k_x k_y k_z : value) (return_grid : bool) :
  nth_error h p = Some d ->
  hamiltonian_array syst (Some p) k_x k_y k_z return_grid h
  = match make_momentum_to_lattice (syst_symmetry syst) with
    | Raise e => (h ++ [d], Raise e)
    | Ok mtl =>
        match add_momenta [("k_x", k_x); ("k_y", k_y); ("k_z", k_z)]
                          (changing_of_pars d) with
        | Raise e => (h ++ [d], Raise e)
        | Ok changing =>
            evaluate_grid syst mtl (length h) d changing
                          k_x k_y k_z return_grid (h ++ [d])
        end
    end.
Proof.
  intros Hp.
  unfold hamiltonian_array, bind, ret, copy, lift, read_dict.
  rewrite Hp.
  destruct (make_momentum_to_lattice (syst_symmetry syst)) as [mtl|e];
    [|reflexivity].
  rewrite nth_error_snoc.
  destruct (add_momenta _ _); reflexivity.
Qed.

(** With [p=None] the function works on a new, empty namespace. *)
Lemma hamiltonian_array_None (syst : System) (h : heap)
    (k_x k_y k_z : value) (return_grid : bool) :
  hamiltonian_array syst None k_x k_y k_z return_grid h
  = hamiltonian_array syst (Some (length h)) k_x k_y k_z return_grid (h ++ [[]]).
Proof. reflexivity. Qed.

Lemma hamiltonian_frame (syst : System) (mtl : list Q -> outcome (list Q))
    (h : heap) (x : namespace) (k_x k_y k_z : value) (values : dict Q) :
  exists x' r,
    hamiltonian syst mtl (length h) k_x k_y k_z values (h ++ [x])
    = (h ++ [x'], r).
Proof.
  unfold hamiltonian, bind, update_dict, lift, read_dict.
  rewrite nth_error_snoc, heap_write_snoc.
  destruct (values_get values "k_x" k_x); [|eauto].
  destruct (values_get values "k_y" k_y); [|eauto].
  destruct (values_get values "k_z" k_z); [|eauto].
  destruct (mtl _); [|eauto].
  rewrite nth_error_snoc. eauto.
Qed.

Lemma mapM_hamiltonian_frame (syst : System)
    (mtl : list Q -> outcome (list Q)) (k_x k_y k_z : value)
    (names : list string) (points : list (list Q)) :
  forall (h : heap) (x : namespace),
  exists x' r,
    mapM (fun value => hamiltonian syst mtl (length h) k_x k_y k_z
                                   (combine names value))
         points (h ++ [x])
    = (h ++ [x'], r).
Proof.
  induction points as [|pt points IH]; intros h x; simpl.
  - unfold ret; eauto.
  - unfold bind.
    destruct (hamiltonian_frame syst mtl h x k_x k_y k_z (combine names pt))
      as [x1 [r1 ->]].
    destruct r1 as [H1|e]; [|eauto].
    destruct (IH h x1) as [x2 [r2 ->]].
    destruct r2; unfold ret; eauto.
Qed.

Lemma evaluate_grid_frame (syst : System) (mtl : list Q -> outcome (list Q))
    (h : heap) (x d : namespace) (changing : dict (list Q))
    (k_x k_y k_z : value) (return_grid : bool) :
  exists x' r,
    evaluate_grid syst mtl (length h) d changing k_x k_y k_z return_grid
                  (h ++ [x])
    = (h ++ [x'], r).
Proof.
  unfold evaluate_grid.
  destruct changing as [|c changing].
  - unfold bind, lift, ret.
    destruct (as_scalar k_x); [|eauto].
    destruct (as_scalar k_y); [|eauto].
    destruct (as_scalar k_z); [|eauto].
    destruct (mtl _); [|eauto].
    destruct (hamiltonian_submatrix syst d _); eauto.
  - unfold bind at 1.
    destruct (mapM_hamiltonian_frame syst mtl k_x k_y k_z
                (map fst (sorted (c :: changing)))
                (product (map snd (sorted (c :: changing)))) h x)
      as [x1 [r1 ->]].
    destruct r1 as [Hs|e]; [|eauto].
    unfold bind, throw, ret, lift.
    destruct Hs as [|H0 Hs]; [eauto|].
    destruct (np_array_reshape _ _); eauto.
Qed.

(** C9.  After a call to [hamiltonian_array] the caller's parameter bundle
    holds the same fields with the same values as before, whatever the
    outcome of the call; so does every other object the caller had.  All
    writes go to the copy made at the start. *)
Theorem hamiltonian_array_leaves_bundle (syst : System) (h : heap) (p : ref)
    (d : namespace) (k_x k_y k_z : value) (return_grid : bool) :
  nth_error h p = Some d ->
  let h' := fst (hamiltonian_array syst (Some p) k_x k_y k_z return_grid h) in
  nth_error h' p = Some d /\ firstn (length h) h' = h.
Proof.
  intros Hp.
  assert (exists x r,
             hamiltonian_array syst (Some p) k_x k_y k_z return_grid h
             = (h ++ [x], r)) as [x [r E]].
  { rewrite (hamiltonian_array_start syst h p d) by assumption.
    destruct (make_momentum_to_lattice _); [|eauto].
    destruct (add_momenta _ _); [|eauto].
    apply evaluate_grid_frame. }
  simpl. rewrite E. simpl. split.
  - apply nth_error_snoc_old; assumption.
  - rewrite firstn_app, Nat.sub_diag, firstn_all. simpl.
    apply app_nil_r.
Qed.

Definition sweep_bundle : namespace :=
  [("t", Scalar 1); ("t_2", Scalar 0); ("m", Sequence [0; 1 # 4]%Q)].

Lemma hamiltonian_array_leaves_bundle_witness :
  nth_error [sweep_bundle] 0 = Some sweep_bundle
  /\ (let h' := fst (hamiltonian_array (finalize haldane_bulk) (Some 0)
                       (Sequence [0; 1; 2]%Q) (Scalar 0) (Scalar 0) true
                       [sweep_bundle]) in
      nth_error h' 0 = Some sweep_bundle
      /\ firstn (length [sweep_bundle]) h' = [sweep_bundle]).
Proof.
  split; [reflexivity|].
  exact (hamiltonian_array_leaves_bundle (finalize haldane_bulk)
           [sweep_bundle] 0 sweep_bundle
           (Sequence [0; 1; 2]%Q) (Scalar 0) (Scalar 0) true eq_refl).
Defined.

(** The writes are real: on the same call the copy ends up holding the last
    grid point. *)
Example hamiltonian_array_writes_copy :
  fst (hamiltonian_array (finalize haldane_bulk) (Some 0)
         (Sequence [0; 1; 2]%Q) (Scalar 0) (Scalar 0) true [sweep_bundle])
  = [ sweep_bundle;
      [("t", Scalar 1); ("t_2", Scalar 0); ("m", Scalar (1 # 4));
       ("k_x", Scalar 2)] ].
Proof. vm_compute. reflexivity. Qed.

(** ** Dictionaries and the swept axes *)

Lemma dict_get_set {V} (d : dict V) (key key' : string) (v : V) :
  dict_get (dict_set d key v) key'
  = if String.eqb key key' then Some v else dict_get d key'.
Proof.
  induction d as [|[k w] d IH]; simpl.
  - reflexivity.
  - destruct (String.eqb_spec k key) as [->|Hne]; simpl.
    + destruct (String.eqb key key'); reflexivity.
    + rewrite IH.
      destruct (String.eqb_spec k key') as [->|Hne'].
      * destruct (String.eqb_spec key key'); [congruence|reflexivity].
      * reflexivity.
Qed.

Lemma dict_mem_set {V} (d : dict V) (key key' : string) (v : V) :
  dict_mem (dict_set d key v) key' = String.eqb key key' || dict_mem d key'.
Proof.
  unfold dict_mem. rewrite dict_get_set.
  destruct (String.eqb key key'); reflexivity.
Qed.

(** A name is a swept parameter exactly when the bundle has a field of that
    name holding a sequence. *)
Definition holds_sequence (d : namespace) (key : string) : bool :=
  existsb (fun kv => String.eqb (fst kv) key && isIterable (snd kv)) d.

Lemma changing_of_pars_mem (d : namespace) (key : string) :
  dict_mem (changing_of_pars d) key = holds_sequence d key.
Proof.
  unfold changing_of_pars, holds_sequence.
  assert (forall acc,
             dict_mem (fold_left
                         (fun changing kv =>
                            match snd kv with
                            | Sequence xs => dict_set changing (fst kv) xs
                            | Scalar _ => changing
                            end) d acc) key
             = dict_mem acc key
               || existsb (fun kv => String.eqb (fst kv) key
                                     && isIterable (snd kv)) d) as G.
  { induction d as [|[k v] d IH]; intros acc; simpl.
    - rewrite orb_false_r; reflexivity.
    - rewrite IH. destruct v as [x|xs]; simpl.
      + rewrite andb_false_r; reflexivity.
      + rewrite dict_mem_set, andb_true_r.
        destruct (String.eqb k key), (dict_mem acc key); reflexivity. }
  rewrite G. reflexivity.
Qed.

Lemma holds_sequence_In (d : namespace) (key : string) :
  holds_sequence d key = true <-> exists xs, In (key, Sequence xs) d.
Proof.
  unfold holds_sequence. rewrite existsb_exists. split.
  - intros [[k v] [Hin Hk]]. simpl in Hk.
    apply andb_true_iff in Hk as [Hk Hv].
    apply String.eqb_eq in Hk; subst k.
    destruct v as [x|xs]; [discriminate|]. eauto.
  - intros [xs Hin]. exists (key, Sequence xs). split; [assumption|].
    simpl. rewrite String.eqb_refl. reflexivity.
Qed.

Definition with_axis (key : string) (v : value) (changing : dict (list Q))
  : dict (list Q) :=
  match v with
  | Sequence xs => dict_set changing key xs
  | Scalar _ => changing
  end.

Lemma with_axis_mem (key key' : string) (v : value) (changing : dict (list Q)) :
  String.eqb key key' = false ->
  dict_mem (with_axis key v changing) key' = dict_mem changing key'.
Proof.
  intros Hne. destruct v; simpl; [reflexivity|].
  rewrite dict_mem_set, Hne. reflexivity.
Qed.

(** The name check of the second loop, spelled out. *)
Lemma add_momenta_reserved (changing : dict (list Q)) (k_x k_y k_z : value) :
  add_momenta [("k_x", k_x); ("k_y", k_y); ("k_z", k_z)] changing
  = if dict_mem changing "k_x"
    then Raise (RuntimeError (reserved_name_message "k_x"))
    else if dict_mem changing "k_y"
         then Raise (RuntimeError (reserved_name_message "k_y"))
         else if dict_mem changing "k_z"
              then Raise (RuntimeError (reserved_name_message "k_z"))
              else Ok (with_axis "k_z" k_z
                         (with_axis "k_y" k_y (with_axis "k_x" k_x changing))).
Proof.
  unfold add_momenta.
  destruct (dict_mem changing "k_x"); [reflexivity|].
  fold (with_axis "k_x" k_x changing).
  rewrite (with_axis_mem "k_x" "k_y") by reflexivity.
  destruct (dict_mem changing "k_y"); [reflexivity|].
  fold (with_axis "k_y" k_y (with_axis "k_x" k_x changing)).
  rewrite (with_axis_mem "k_y" "k_z"), (with_axis_mem "k_x" "k_z")
    by reflexivity.
  destruct (dict_mem changing "k_z"); reflexivity.
Qed.

(** ** C3: parameter fields with a reserved momentum name *)

Definition reserved_names : list string := ["k_x"; "k_y"; "k_z"].

(** C3, as the code has it.  When a field of the bundle named [k_x], [k_y] or
    [k_z] holds a sequence, [hamiltonian_array] raises the reserved-name
    [RuntimeError] for such a name before any Hamiltonian is evaluated.  When
    no field of these names holds a sequence (the field is absent or holds a
    scalar), the name check passes. *)
Theorem reserved_name_conflict (syst : System) (h : heap) (p : ref)
    (d : namespace) (k_x k_y k_z : value) (return_grid : bool)
    (mtl : list Q -> outcome (list Q)) :
  nth_error h p = Some d ->
  make_momentum_to_lattice (syst_symmetry syst) = Ok mtl ->
  ((exists key, In key reserved_names /\ holds_sequence d key = true) ->
   exists key,
     In key reserved_names /\ holds_sequence d key = true
     /\ snd (hamiltonian_array syst (Some p) k_x k_y k_z return_grid h)
        = Raise (RuntimeError (reserved_name_message key)))
  /\ ((forall key, In key reserved_names -> holds_sequence d key = false) ->
      add_momenta [("k_x", k_x); ("k_y", k_y); ("k_z", k_z)]
                  (changing_of_pars d)
      = Ok (with_axis "k_z" k_z
              (with_axis "k_y" k_y
                 (with_axis "k_x" k_x (changing_of_pars d))))).
Proof.
  intros Hp Hm.
  rewrite (hamiltonian_array_start syst h p d) by assumption.
  rewrite Hm, add_momenta_reserved, !changing_of_pars_mem.
  split.
  - intros [key [Hin Hseq]].
    destruct (holds_sequence d "k_x") eqn:Ex.
    { exists "k_x". repeat split; simpl; auto. }
    destruct (holds_sequence d "k_y") eqn:Ey.
    { exists "k_y". repeat split; simpl; auto. }
    destruct (holds_sequence d "k_z") eqn:Ez.
    { exists "k_z". repeat split; simpl; auto. }
    simpl in Hin. destruct Hin as [<-|[<-|[<-|[]]]]; congruence.
  - intros Hnone.
    rewrite (Hnone "k_x"), (Hnone "k_y"), (Hnone "k_z");
      simpl; auto.
Qed.

Definition conflicting_bundle : namespace :=
  [("t", Scalar 1); ("k_y", Sequence [0; 1]%Q)].

Lemma reserved_name_conflict_witness :
  exists key,
    In key reserved_names /\ holds_sequence conflicting_bundle key = true
    /\ snd (hamiltonian_array (finalize haldane_zigzag) (Some 0)
              (Scalar 0) (Scalar 0) (Scalar 0) false [conflicting_bundle])
       = Raise (RuntimeError (reserved_name_message key)).
Proof.
  apply (proj1 (reserved_name_conflict (finalize haldane_zigzag)
                  [conflicting_bundle] 0 conflicting_bundle
                  (Scalar 0) (Scalar 0) (Scalar 0) false
                  (momentum_to_lattice_1 1) eq_refl eq_refl)).
  exists "k_y". split; [simpl; auto|reflexivity].
Defined.

Definition scalar_k_x_bundle : namespace :=
  [("t", Scalar 1); ("t_2", Scalar 0); ("m", Scalar (1 # 4));
   ("k_x", Scalar 1)].

(** A bundle whose field [k_x] holds a scalar is accepted: the call returns
    the Hamiltonian and raises nothing. *)
Lemma scalar_reserved_field_accepted :
  dict_get scalar_k_x_bundle "k_x" = Some (Scalar 1)
  /\ exists arr,
       snd (hamiltonian_array (finalize haldane_bulk) (Some 0)
              (Scalar 0) (Scalar 0) (Scalar 0) false [scalar_k_x_bundle])
       = Ok (arr, None)
       /\ shape arr = [1; 2; 2].
Proof.
  split; [reflexivity|].
  eexists. split; vm_compute; reflexivity.
Qed.

(** ** One translational direction: the mapping at a fixed point *)

Lemma truthy_false (x : Q) : truthy x = false <-> (x == 0)%Q.
Proof.
  unfold truthy. rewrite negb_false_iff. apply Qeq_bool_iff.
Qed.

Lemma truthy_true (x : Q) : truthy x = true <-> ~ (x == 0)%Q.
Proof.
  unfold truthy. rewrite negb_true_iff. split.
  - intros H E. apply Qeq_bool_iff in E. congruence.
  - intros H. destruct (Qeq_bool x 0) eqn:E; [|reflexivity].
    apply Qeq_bool_iff in E. contradiction.
Qed.

Lemma momentum_to_lattice_1_spec (k_x k_y k_z : Q) :
  momentum_to_lattice_1 1 [k_x; k_y; k_z]
  = if truthy k_y || truthy k_z
    then Raise (ValueError "Dispersion is 1D, but more momenta are provided.")
    else Ok [k_x].
Proof.
  unfold momentum_to_lattice_1, any. simpl.
  rewrite orb_false_r. reflexivity.
Qed.

Lemma make_momentum_to_lattice_1 (s : Symmetry) :
  num_directions s = 1 ->
  make_momentum_to_lattice s = Ok (momentum_to_lattice_1 1).
Proof.
  destruct s; simpl; intros H; try discriminate. reflexivity.
Qed.

(** The call without swept axes, for scalars [k_x], [k_y], [k_z]. *)
Lemma hamiltonian_array_fixed_point (syst : System) (h : heap) (p : ref)
    (d : namespace) (k_x k_y k_z : Q) (return_grid : bool)
    (mtl : list Q -> outcome (list Q)) :
  nth_error h p = Some d ->
  changing_of_pars d = [] ->
  make_momentum_to_lattice (syst_symmetry syst) = Ok mtl ->
  hamiltonian_array syst (Some p) (Scalar k_x) (Scalar k_y) (Scalar k_z)
                    return_grid h
  = (h ++ [d],
     match mtl [k_x; k_y; k_z] with
     | Raise e => Raise e
     | Ok k =>
         match hamiltonian_submatrix syst d k with
         | Raise e => Raise e
         | Ok H => Ok ({| shape := 1 :: matrix_shape H; data := concat H |},
                       if return_grid then Some [] else None)
         end
     end).
Proof.
  intros Hp Hd Hm.
  rewrite (hamiltonian_array_start syst h p d) by assumption.
  rewrite Hm, Hd. simpl.
  unfold bind, lift, ret. simpl.
  destruct (mtl _); [|reflexivity].
  destruct (hamiltonian_submatrix syst d _); reflexivity.
Qed.

(** For a system with exactly one translational direction, the momentum
    mapping chosen by [hamiltonian_array] returns [k_x] alone as the lattice
    momentum when [k_y] and [k_z] are zero, and raises the [ValueError]
    "Dispersion is 1D, but more momenta are provided." when [k_y] or [k_z] is
    not zero; a call of [hamiltonian_array] at a fixed point accordingly
    evaluates the Hamiltonian at [[k_x]] or fails with that error. *)
Theorem ribbon_momentum (syst : System) (k_x k_y k_z : Q) :
  num_directions (syst_symmetry syst) = 1 ->
  make_momentum_to_lattice (syst_symmetry syst)
  = Ok (momentum_to_lattice_1 1)
  /\ ((k_y == 0)%Q /\ (k_z == 0)%Q ->
      momentum_to_lattice_1 1 [k_x; k_y; k_z] = Ok [k_x])
  /\ (~ (k_y == 0)%Q \/ ~ (k_z == 0)%Q ->
      momentum_to_lattice_1 1 [k_x; k_y; k_z]
      = Raise (ValueError "Dispersion is 1D, but more momenta are provided."))
  /\ forall (h : heap) (p : ref) (d : namespace) (return_grid : bool),
       nth_error h p = Some d ->
       changing_of_pars d = [] ->
       ((k_y == 0)%Q /\ (k_z == 0)%Q ->
        snd (hamiltonian_array syst (Some p) (Scalar k_x) (Scalar k_y)
                               (Scalar k_z) return_grid h)
        = match hamiltonian_submatrix syst d [k_x] with
          | Raise e => Raise e
          | Ok H => Ok ({| shape := 1 :: matrix_shape H; data := concat H |},
                        if return_grid then Some [] else None)
          end)
       /\ (~ (k_y == 0)%Q \/ ~ (k_z == 0)%Q ->
           snd (hamiltonian_array syst (Some p) (Scalar k_x) (Scalar k_y)
                                  (Scalar k_z) return_grid h)
           = Raise (ValueError
                      "Dispersion is 1D, but more momenta are provided.")).
Proof.
  intros Hdim.
  pose proof (make_momentum_to_lattice_1 _ Hdim) as Hm.
  assert ((k_y == 0)%Q /\ (k_z == 0)%Q ->
          momentum_to_lattice_1 1 [k_x; k_y; k_z] = Ok [k_x]) as Hzero.
  { intros [Hy Hz]. rewrite momentum_to_lattice_1_spec.
    apply truthy_false in Hy, Hz. rewrite Hy, Hz. reflexivity. }
  assert (~ (k_y == 0)%Q \/ ~ (k_z == 0)%Q ->
          momentum_to_lattice_1 1 [k_x; k_y; k_z]
          = Raise (ValueError
                     "Dispersion is 1D, but more momenta are provided."))
    as Hnonzero.
  { intros Hyz. rewrite momentum_to_lattice_1_spec.
    destruct Hyz as [Hy|Hz].
    - apply truthy_true in Hy. rewrite Hy. reflexivity.
    - apply truthy_true in Hz. rewrite Hz, orb_true_r. reflexivity. }
  repeat split; try assumption.
  - intros Hyz.
    rewrite (hamiltonian_array_fixed_point syst h p d k_x k_y k_z return_grid
               (momentum_to_lattice_1 1)) by assumption.
    simpl. rewrite (Hzero Hyz). reflexivity.
  - intros Hyz.
    rewrite (hamiltonian_array_fixed_point syst h p d k_x k_y k_z return_grid
               (momentum_to_lattice_1 1)) by assumption.
    simpl. rewrite (Hnonzero Hyz). reflexivity.
Qed.

Definition fixed_bundle : namespace :=
  [("t", Scalar 1); ("t_2", Scalar 0); ("m", Scalar (1 # 4))].

Lemma ribbon_momentum_witness :
  num_directions (syst_symmetry (finalize haldane_zigzag)) = 1
  /\ snd (hamiltonian_array (finalize haldane_zigzag) (Some 0)
            (Scalar 1) (Scalar (1 # 2)) (Scalar 0) false [fixed_bundle])
     = Raise (ValueError "Dispersion is 1D, but more momenta are provided.").
Proof.
  split; [reflexivity|].
  refine (proj2 (proj2 (proj2 (proj2
            (ribbon_momentum (finalize haldane_zigzag) 1 (1 # 2) 0 eq_refl)))
            [fixed_bundle] 0 fixed_bundle false eq_refl eq_refl) _).
  left. intros E. discriminate E.
Defined.

(** ** [spectrum]: the number of swept axes *)

(** What [spectrum] does with the result of [hamiltonian_array], by the
    number of axes of the grid. *)
Definition spectrum_branch (np_linalg_eigvalsh : ndarray -> rarray)
    (return_energies : bool) (r : outcome (ndarray * option grid))
  : outcome spectrum_result :=
  match r with
  | Raise e => Raise e
  | Ok (_, None) => Raise TypeError
  | Ok (hamiltonians, Some variables) =>
      match length variables with
      | 0 => Raise (ValueError "A 0D plot requested")
      | 1 => if return_energies
             then Ok (Energies (np_linalg_eigvalsh hamiltonians))
             else Ok (Plot 1 (np_linalg_eigvalsh hamiltonians))
      | 2 => if return_energies
             then Ok (Energies (np_linalg_eigvalsh hamiltonians))
             else Ok (Plot 2 (np_linalg_eigvalsh hamiltonians))
      | _ => if return_energies
             then Raise (UnboundLocalError "energies")
             else Raise (ValueError "Cannot make 4D plots yet.")
      end
  end.

Lemma spectrum_unfold (np_linalg_eigvalsh : ndarray -> rarray) (syst : System)
    (p : option ref) (k_x k_y k_z : option value) (res : nat)
    (return_energies : bool) (h : heap) :
  let dimensionality := num_directions (syst_symmetry syst) in
  snd (spectrum np_linalg_eigvalsh syst p k_x k_y k_z res return_energies h)
  = spectrum_branch np_linalg_eigvalsh return_energies
      (snd (hamiltonian_array syst p
              (spectrum_momentum dimensionality res 0 k_x)
              (spectrum_momentum dimensionality res 1 k_y)
              (spectrum_momentum dimensionality res 2 k_z) true h)).
Proof.
  intros dimensionality.
  assert (forall r h0,
             snd (spectrum np_linalg_eigvalsh syst (Some r) k_x k_y k_z res
                           return_energies h0)
             = spectrum_branch np_linalg_eigvalsh return_energies
                 (snd (hamiltonian_array syst (Some r)
                         (spectrum_momentum dimensionality res 0 k_x)
                         (spectrum_momentum dimensionality res 1 k_y)
                         (spectrum_momentum dimensionality res 2 k_z)
                         true h0))) as G.
  { intros r h0. unfold spectrum. unfold bind at 1. unfold ret at 1.
    unfold bind at 1. fold dimensionality.
    destruct (hamiltonian_array syst (Some r) _ _ _ true h0)
      as [h1 [[arr [g|]]|e]]; simpl; try reflexivity.
    unfold bind, ret, throw.
    destruct g as [|v1 [|v2 [|v3 g]]]; simpl;
      destruct return_energies; reflexivity. }
  destruct p as [r|].
  - apply G.
  - rewrite hamiltonian_array_None. rewrite <- G. reflexivity.
Qed.

(** The bundle a call works on: the caller's object, or a new empty one when
    [p] is [None]. *)
Definition bundle_of (h : heap) (p : option ref) : option namespace :=
  match p with
  | None => Some []
  | Some r => nth_error h r
  end.

Lemma hamiltonian_array_no_axes (syst : System) (h : heap) (p : option ref)
    (d : namespace) (x y z : Q) :
  bundle_of h p = Some d ->
  changing_of_pars d = [] ->
  forall r,
    snd (hamiltonian_array syst p (Scalar x) (Scalar y) (Scalar z) true h)
    = Ok r ->
    snd r = Some [].
Proof.
  intros Hp Hd r.
  assert (forall h0 q,
             nth_error h0 q = Some d ->
             snd (hamiltonian_array syst (Some q) (Scalar x) (Scalar y)
                                    (Scalar z) true h0) = Ok r ->
             snd r = Some []) as G.
  { intros h0 q Hq.
    rewrite (hamiltonian_array_start syst h0 q d) by assumption.
    destruct (make_momentum_to_lattice (syst_symmetry syst)) as [mtl|e];
      [|discriminate].
    rewrite Hd. simpl. unfold bind, lift, ret. simpl.
    destruct (mtl _); [|discriminate].
    destruct (hamiltonian_submatrix syst d _); [|discriminate].
    simpl. intros E. injection E as <-. reflexivity. }
  destruct p as [q|]; simpl in Hp.
  - apply G; assumption.
  - injection Hp as <-. rewrite hamiltonian_array_None.
    apply G. apply nth_error_snoc.
Qed.

(** C10.  When no field of the bundle holds a sequence and each of the three
    momenta handed on to the evaluator is a scalar, [spectrum] raises an
    exception and returns nothing, whatever [return_energies] is; the
    exception is the [ValueError] "A 0D plot requested" whenever the
    Hamiltonian itself could be evaluated. *)
Theorem spectrum_no_axes (np_linalg_eigvalsh : ndarray -> rarray)
    (syst : System) (h : heap) (p : option ref) (d : namespace)
    (k_x k_y k_z : option value) (res : nat) (return_energies : bool)
    (x y z : Q) :
  bundle_of h p = Some d ->
  changing_of_pars d = [] ->
  spectrum_momentum (num_directions (syst_symmetry syst)) res 0 k_x = Scalar x ->
  spectrum_momentum (num_directions (syst_symmetry syst)) res 1 k_y = Scalar y ->
  spectrum_momentum (num_directions (syst_symmetry syst)) res 2 k_z = Scalar z ->
  exists e,
    snd (spectrum np_linalg_eigvalsh syst p k_x k_y k_z res return_energies h)
    = Raise e
    /\ (forall r,
           snd (hamiltonian_array syst p (Scalar x) (Scalar y) (Scalar z)
                                  true h) = Ok r ->
           e = ValueError "A 0D plot requested").
Proof.
  intros Hp Hd Hx Hy Hz.
  rewrite spectrum_unfold. rewrite Hx, Hy, Hz.
  pose proof (hamiltonian_array_no_axes syst h p d x y z Hp Hd) as G.
  destruct (snd (hamiltonian_array syst p (Scalar x) (Scalar y) (Scalar z)
                                   true h)) as [[arr g]|e].
  - specialize (G _ eq_refl). simpl in G. subst g. simpl.
    eexists. split; [reflexivity|]. intros; reflexivity.
  - exists e. split; [reflexivity|]. intros r Hr. discriminate Hr.
Qed.

(** An eigenvalue routine for the examples; no example below reaches it. *)
Definition eigvalsh_diagonal (a : ndarray) : rarray :=
  {| rshape := removelast (shape a); rdata := map Re (data a) |}.

Lemma spectrum_no_axes_witness :
  exists e,
    snd (spectrum eigvalsh_diagonal (finalize haldane_bulk) (Some 0)
           (Some (Scalar 0)) (Some (Scalar 1)) None 101 true [fixed_bundle])
    = Raise e
    /\ (forall r,
           snd (hamiltonian_array (finalize haldane_bulk) (Some 0)
                  (Scalar 0) (Scalar 1) (Scalar 0) true [fixed_bundle]) = Ok r ->
           e = ValueError "A 0D plot requested").
Proof.
  exact (spectrum_no_axes eigvalsh_diagonal (finalize haldane_bulk)
           [fixed_bundle] (Some 0) fixed_bundle
           (Some (Scalar 0)) (Some (Scalar 1)) None 101 true 0 1 0
           eq_refl eq_refl eq_refl eq_refl eq_refl).
Defined.

(** On that call the Hamiltonian is evaluated and the error is the 0D one. *)
Example spectrum_fixed_point_raises :
  snd (spectrum eigvalsh_diagonal (finalize haldane_bulk) (Some 0)
         (Some (Scalar 0)) (Some (Scalar 1)) None 101 true [fixed_bundle])
  = Raise (ValueError "A 0D plot requested").
Proof. vm_compute. reflexivity. Qed.

(** X13.  With more than two axes and [return_energies] false, the last
    branch of [spectrum] is reached and raises the [ValueError] "Cannot make
    4D plots yet.". *)
Lemma spectrum_many_axes_plot (np_linalg_eigvalsh : ndarray -> rarray)
    (syst : System) (p : option ref) (k_x k_y k_z : option value)
    (res : nat) (h : heap) (arr : ndarray) (variables : grid) :
  snd (hamiltonian_array syst p
         (spectrum_momentum (num_directions (syst_symmetry syst)) res 0 k_x)
         (spectrum_momentum (num_directions (syst_symmetry syst)) res 1 k_y)
         (spectrum_momentum (num_directions (syst_symmetry syst)) res 2 k_z)
         true h) = Ok (arr, Some variables) ->
  2 < length variables ->
  snd (spectrum np_linalg_eigvalsh syst p k_x k_y k_z res false h)
  = Raise (ValueError "Cannot make 4D plots yet.").
Proof.
  intros Hr Hn. rewrite spectrum_unfold. simpl. rewrite Hr. simpl.
  destruct (length variables) as [|[|[|n]]]; try lia. reflexivity.
Qed.

(** C5, evaluated.  The bulk Haldane system with [m] a sequence and both
    [k_x] and [k_y] left at [None] has three swept axes.  Asked for a plot,
    [spectrum] raises the [ValueError] "Cannot make 4D plots yet."; asked for
    the energies, it reaches [return energies] with [energies] never
    assigned and raises [UnboundLocalError] instead. *)
Theorem spectrum_three_axes_energies (np_linalg_eigvalsh : ndarray -> rarray) :
  snd (spectrum np_linalg_eigvalsh (finalize haldane_bulk) (Some 0)
         None None None 2 false [sweep_bundle])
  = Raise (ValueError "Cannot make 4D plots yet.")
  /\ snd (spectrum np_linalg_eigvalsh (finalize haldane_bulk) (Some 0)
            None None None 2 true [sweep_bundle])
     = Raise (UnboundLocalError "energies").
Proof.
  split; rewrite spectrum_unfold; vm_compute; reflexivity.
Qed.

(** ** C4: two translational directions *)



(** [A = B @ np.linalg.inv(B.T @ B)] for the periods [a1], [a2]. *)
Definition projection_matrix (a1 a2 : vec) : outcome matrix :=
  let B := transpose (length a1) [a1; a2] in
  match np_linalg_inv (matmul 2 (transpose 2 B) B) with
  | Raise e => Raise e
  | Ok Gi => Ok (matmul 2 B Gi)
  end.

Lemma make_momentum_to_lattice_2 (a1 a2 : vec) :
  make_momentum_to_lattice (Translational2 a1 a2)
  = match projection_matrix a1 a2 with
    | Raise e => Raise e
    | Ok A => Ok (momentum_to_lattice_2 A (length a1))
    end.
Proof.
  unfold projection_matrix.
  destruct (np_linalg_inv _) as [Gi|e] eqn:E;
    unfold make_momentum_to_lattice;
    cbn -[np_linalg_inv matmul transpose]; rewrite E; reflexivity.
Qed.

Lemma projection_matrix_rows (a1 a2 : vec) (A : matrix) :
  projection_matrix a1 a2 = Ok A -> length A = length a1.
Proof.
  unfold projection_matrix.
  destruct (np_linalg_inv _) as [Gi|e]; [|discriminate].
  intros E. injection E as <-.
  unfold matmul, transpose. rewrite !length_map, length_seq. reflexivity.
Qed.






Definition square_lattice : System :=
  {| syst_symmetry := Translational2 [1; 0]%Q [0; 1]%Q;
     hamiltonian_submatrix := fun _ _ => Ok [[C0]] |}.



(** ** C6: Hermiticity *)

Lemma Cconj_involutive (z : C) : Cconj (Cconj z) = z.
Proof.
  destruct z as [a [bn bd]]. unfold Cconj, Qopp. simpl.
  rewrite Z.opp_involutive. reflexivity.
Qed.

Lemma Cadd_comm (z w : C) : Cadd z w = Cadd w z.
Proof.
  destruct z as [[an ad] [bn bd]], w as [[cn cd] [dn dd]].
  unfold Cadd, Qplus. simpl.
  f_equal; (apply f_equal2; [ring | apply Pos.mul_comm]).
Qed.

Lemma Cconj_add (z w : C) : Cconj (Cadd z w) = Cadd (Cconj z) (Cconj w).
Proof.
  destruct z as [[an ad] [bn bd]], w as [[cn cd] [dn dd]].
  unfold Cconj, Cadd, Qplus, Qopp. simpl.
  f_equal. apply f_equal2; [ring | reflexivity].
Qed.

(** [pv + herm_conj(pv)] is its own conjugate. *)
Lemma Cconj_self_adjoint_sum (pv : C) :
  Cconj (Cadd pv (Cconj pv)) = Cadd pv (Cconj pv).
Proof.
  rewrite Cconj_add, Cconj_involutive. apply Cadd_comm.
Qed.

Lemma Cconj_ofQ (x : Q) : Cconj (ofQ x) = ofQ x.
Proof. reflexivity. Qed.

Lemma Cconj_Csum (l : list C) : Cconj (Csum l) = Csum (map Cconj l).
Proof.
  unfold Csum. change C0 with (Cconj C0) at 2.
  generalize C0 as acc.
  induction l as [|z l IH]; intros acc; simpl.
  - reflexivity.
  - rewrite IH, Cconj_add. reflexivity.
Qed.

Lemma bond_terms_conj (i j : nat) (b : nat * nat * C) :
  map Cconj (bond_terms j i b) = bond_terms i j b.
Proof.
  destruct b as [[a b'] pv]. unfold bond_terms.
  destruct (Nat.eqb_spec a b') as [Hab|Hab].
  - rewrite andb_comm.
    destruct ((i =? a) && (j =? a)); simpl;
      rewrite ?Cconj_self_adjoint_sum; reflexivity.
  - destruct (Nat.eqb_spec i a), (Nat.eqb_spec j a),
      (Nat.eqb_spec i b'), (Nat.eqb_spec j b');
      subst; simpl; rewrite ?Cconj_involutive;
      try reflexivity; congruence.
Qed.

Definition self_conjugate (z : C) : Prop := Cconj z = z.

Lemma nth_self_conjugate (l : list C) (i : nat) :
  Forall self_conjugate l -> Cconj (nth i l C0) = nth i l C0.
Proof.
  intros Hl. revert i. induction Hl as [|z l Hz Hl IH]; intros [|i]; simpl;
    try reflexivity; auto.
Qed.

Lemma entry_terms_conj (onsites : list C) (bs : list (nat * nat * C))
    (i j : nat) :
  Forall self_conjugate onsites ->
  map Cconj (entry_terms onsites bs j i) = entry_terms onsites bs i j.
Proof.
  intros Hreal. unfold entry_terms. rewrite map_app. f_equal.
  - destruct (Nat.eqb_spec j i) as [->|Hne].
    + rewrite Nat.eqb_refl. simpl. rewrite nth_self_conjugate by assumption.
      reflexivity.
    + destruct (Nat.eqb_spec i j); [congruence|reflexivity].
  - induction bs as [|b bs IH]; simpl; [reflexivity|].
    rewrite map_app, bond_terms_conj, IH. reflexivity.
Qed.

Lemma nth_map_seq {A} (F : nat -> A) (n i : nat) (d : A) :
  i < n -> nth i (map F (seq 0 n)) d = F i.
Proof.
  intros Hi.
  rewrite (nth_indep _ d (F 0)) by (rewrite length_map, length_seq; lia).
  rewrite map_nth, seq_nth by lia. reflexivity.
Qed.

(** A square matrix of side [n], as a list of [n] rows of [n] entries. *)
Definition square (n : nat) (H : cmatrix) : Prop :=
  length H = n /\ Forall (fun row => length row = n) H.

Definition hermitian (n : nat) (H : cmatrix) : Prop :=
  square n H /\ conj_transpose n H = H.

Lemma assemble_square (n : nat) (onsites : list C)
    (bs : list (nat * nat * C)) :
  square n (assemble n onsites bs).
Proof.
  unfold square, assemble. split.
  - rewrite length_map, length_seq. reflexivity.
  - apply Forall_forall. intros row Hrow.
    apply in_map_iff in Hrow as [i [<- _]].
    rewrite length_map, length_seq. reflexivity.
Qed.

(** The matrix kwant assembles is Hermitian as soon as the onsite values are
    their own conjugates: every hopping is stored once and entered with its
    conjugate at the transposed place. *)
Lemma assemble_hermitian (n : nat) (onsites : list C)
    (bs : list (nat * nat * C)) :
  Forall self_conjugate onsites ->
  hermitian n (assemble n onsites bs).
Proof.
  intros Hreal. split; [apply assemble_square|].
  unfold conj_transpose, assemble.
  apply map_ext_in. intros i Hi. apply map_ext_in. intros j Hj.
  apply in_seq in Hi, Hj.
  unfold conj_transpose_entry.
  rewrite (nth_map_seq _ n j) by lia.
  rewrite (nth_map_seq _ n i) by lia.
  rewrite Cconj_Csum, entry_terms_conj by assumption. reflexivity.
Qed.

Lemma onsite_self_conjugate (f : family) (pars : namespace) (c : C) :
  onsite f pars = Ok c -> self_conjugate c.
Proof.
  unfold onsite, obind. destruct (getattr pars "m"); [|discriminate].
  intros E. injection E as <-. apply Cconj_ofQ.
Qed.

Section WrappedHermitian.

Variable cis : Q -> C.
Variable cross_section : shape_fn -> Symmetry -> Geometry.

(** The number of orbitals of the wrapped system. *)
Definition norbs (b : Builder) : nat :=
  length (fd_sites (geometry cross_section b)).

Lemma wrapped_hamiltonian_hermitian (b : Builder) (pars : namespace)
    (k : list Q) (H : cmatrix) :
  wrapped_hamiltonian cis cross_section b pars k = Ok H ->
  hermitian (norbs b) H.
Proof.
  unfold wrapped_hamiltonian, obind, norbs.
  destruct (omap (fun s => onsite (fst s) pars) _) as [onsites|e] eqn:Eo;
    [|discriminate].
  destruct (omap _ (bonds _ _)) as [bs|e]; [|discriminate].
  intros E. injection E as <-.
  apply assemble_hermitian.
  apply (omap_Forall self_conjugate _ _ _ (fun s c => onsite_self_conjugate (fst s) pars c) Eo).
Qed.

(** The evaluation succeeds as soon as the three parameters the value
    functions read are numbers. *)
Lemma wrapped_hamiltonian_total (b : Builder) (pars : namespace)
    (k : list Q) (m t t_2 : Q) :
  getattr pars "m" = Ok m ->
  getattr pars "t" = Ok t ->
  getattr pars "t_2" = Ok t_2 ->
  exists H, wrapped_hamiltonian cis cross_section b pars k = Ok H.
Proof.
  intros Hm Ht Ht2. unfold wrapped_hamiltonian, obind.
  destruct (omap_total (fun s => onsite (fst s) pars)
              (fd_sites (geometry cross_section b))) as [onsites ->].
  { intros s _. unfold onsite, obind. rewrite Hm. eauto. }
  destruct (omap_total (fun bd => bond_value cis bd pars k)
              (bonds (geometry cross_section b) (builder_hoppings b)))
    as [bs ->].
  { intros bd _. unfold bond_value, obind, hopping_value.
    destruct (bond_fn bd); [rewrite Ht|rewrite Ht2]; simpl; eauto. }
  eauto.
Qed.

End WrappedHermitian.

(** *** What the array returned by [hamiltonian_array] holds *)

Lemma mapM_Forall {A B} (P : B -> Prop) (f : A -> M B) (l : list A) :
  (forall a h h' b, f a h = (h', Ok b) -> P b) ->
  forall h h' bs,
    mapM f l h = (h', Ok bs) -> length bs = length l /\ Forall P bs.
Proof.
  intros Hf. induction l as [|a l IH]; simpl; intros h h' bs.
  - unfold ret. intros E. injection E as _ <-. split; [reflexivity|constructor].
  - unfold bind.
    destruct (f a h) as [h1 [b|e]] eqn:Ea; [|discriminate].
    destruct (mapM f l h1) as [h2 [bs'|e]] eqn:El; [|discriminate].
    unfold ret. intros E. injection E as _ <-.
    destruct (IH _ _ _ El) as [Hlen Hall].
    split; [simpl; congruence|].
    constructor; [exact (Hf _ _ _ _ Ea)|assumption].
Qed.

(** Every matrix the inner function [hamiltonian] returns is a value of
    [hamiltonian_submatrix]. *)
Lemma hamiltonian_value (syst : System) (mtl : list Q -> outcome (list Q))
    (pars : ref) (k_x k_y k_z : value) (values : dict Q) (h h' : heap)
    (H : cmatrix) :
  hamiltonian syst mtl pars k_x k_y k_z values h = (h', Ok H) ->
  exists d k, hamiltonian_submatrix syst d k = Ok H.
Proof.
  unfold hamiltonian, bind, update_dict, lift, read_dict.
  destruct (nth_error h pars); [|discriminate].
  destruct (values_get values "k_x" k_x); [|discriminate].
  destruct (values_get values "k_y" k_y); [|discriminate].
  destruct (values_get values "k_z" k_z); [|discriminate].
  destruct (mtl _) as [k|e]; [|discriminate].
  destruct (nth_error _ pars) as [d|]; [|discriminate].
  intros E. injection E as _ E. eauto.
Qed.

(** The array is the concatenation of the evaluated matrices, in the order
    of the grid; its shape ends with the shape of the first of them. *)
Lemma evaluate_grid_blocks (P : cmatrix -> Prop) (syst : System)
    (mtl : list Q -> outcome (list Q)) (pars : ref) (d : namespace)
    (changing : dict (list Q)) (k_x k_y k_z : value) (return_grid : bool)
    (h h' : heap) (arr : ndarray) (g : option grid) :
  (forall d k H, hamiltonian_submatrix syst d k = Ok H -> P H) ->
  evaluate_grid syst mtl pars d changing k_x k_y k_z return_grid h
  = (h', Ok (arr, g)) ->
  exists H0 Hs,
    data arr = concat (map (@concat C) (H0 :: Hs))
    /\ Forall P (H0 :: Hs)
    /\ shape arr
       = match changing with
         | [] => [1]
         | _ :: _ => map (@length Q) (map snd (sorted changing))
         end ++ matrix_shape H0
    /\ length (H0 :: Hs)
       = match changing with
         | [] => 1
         | _ :: _ => length (product (map snd (sorted changing)))
         end.
Proof.
  intros HP. unfold evaluate_grid.
  destruct changing as [|c changing].
  - unfold bind, lift, ret.
    destruct (as_scalar k_x); [|discriminate].
    destruct (as_scalar k_y); [|discriminate].
    destruct (as_scalar k_z); [|discriminate].
    destruct (mtl _); [|discriminate].
    destruct (hamiltonian_submatrix syst d _) as [H|e] eqn:EH; [|discriminate].
    intros E. injection E as _ <- _.
    exists H, []. simpl. rewrite app_nil_r.
    repeat split. constructor; [eauto|constructor].
  - unfold bind at 1.
    destruct (mapM _ _ h) as [h1 [Hs|e]] eqn:Em; [|discriminate].
    apply (mapM_Forall P) in Em as [Hlen Hall].
    2:{ intros a h2 h3 b Hb.
        apply hamiltonian_value in Hb as [d' [k' Hb]]. eauto. }
    unfold bind, throw, ret, lift.
    destruct Hs as [|H0 Hs]; [discriminate|].
    unfold np_array_reshape.
    destruct (_ =? _); [|discriminate].
    intros E. injection E as _ <- _.
    exists H0, Hs. simpl. repeat split; assumption.
Qed.

Lemma hamiltonian_array_blocks (P : cmatrix -> Prop) (syst : System)
    (h : heap) (p : ref) (d : namespace) (k_x k_y k_z : value)
    (return_grid : bool) (arr : ndarray) (g : option grid) :
  (forall d k H, hamiltonian_submatrix syst d k = Ok H -> P H) ->
  nth_error h p = Some d ->
  snd (hamiltonian_array syst (Some p) k_x k_y k_z return_grid h)
  = Ok (arr, g) ->
  exists H0 Hs lead,
    data arr = concat (map (@concat C) (H0 :: Hs))
    /\ Forall P (H0 :: Hs)
    /\ shape arr = lead ++ matrix_shape H0.
Proof.
  intros HP Hp.
  rewrite (hamiltonian_array_start syst h p d) by assumption.
  destruct (make_momentum_to_lattice _) as [mtl|e]; [|discriminate].
  destruct (add_momenta _ _) as [changing|e]; [|discriminate].
  destruct (evaluate_grid _ _ _ _ _ _ _ _ _ _) as [h' [[arr' g']|e]] eqn:E;
    [|discriminate].
  simpl. intros E'. injection E' as -> ->.
  destruct (evaluate_grid_blocks P _ _ _ _ _ _ _ _ _ _ _ _ _ HP E)
    as [H0 [Hs [Hdata [Hall [Hshape _]]]]].
  exists H0, Hs. eexists. repeat split; eassumption.
Qed.

Lemma matrix_shape_square (n : nat) (H : cmatrix) :
  square n H -> matrix_shape H = [n; n].
Proof.
  intros [Hlen Hrows]. unfold matrix_shape. rewrite Hlen.
  destruct H as [|row H]; simpl in *.
  - subst n. reflexivity.
  - inversion Hrows; subst. congruence.
Qed.

(** C6.  For a model built by [haldaneModel] and a bundle with [t_2 = 0]:
    at every momentum the Hamiltonian matrix is evaluated as soon as [m] and
    [t] are numbers, and it equals its own conjugate transpose; and whenever
    [hamiltonian_array] returns an array, that array is a sequence of square
    blocks, one per grid point, each equal to its own conjugate transpose.
    (The proof makes no use of the value of [t_2]: hoppings are entered with
    their conjugates at the transposed place and the onsite values are
    real.) *)
Theorem haldane_hermitian (cis : Q -> C)
    (lat_neighbors : list vec -> list vec -> list HoppingKind)
    (cross_section : shape_fn -> Symmetry -> Geometry)
    (w : Q) (boundary : string) (pVecs bAtoms : list vec) (b : Builder)
    (d : namespace) :
  haldaneModel lat_neighbors w boundary pVecs bAtoms = Ok b ->
  getattr d "t_2" = Ok 0%Q ->
  let syst := finalized cis cross_section b in
  let n := norbs cross_section b in
  (forall (k : list Q) (m t : Q),
      getattr d "m" = Ok m ->
      getattr d "t" = Ok t ->
      exists H, hamiltonian_submatrix syst d k = Ok H
                /\ length H = n
                /\ conj_transpose (length H) H = H)
  /\ (forall (h : heap) (p : ref) (k_x k_y k_z : value) (return_grid : bool)
             (arr : ndarray) (g : option grid),
         nth_error h p = Some d ->
         snd (hamiltonian_array syst (Some p) k_x k_y k_z return_grid h)
         = Ok (arr, g) ->
         exists H0 Hs lead,
           data arr = concat (map (@concat C) (H0 :: Hs))
           /\ shape arr = lead ++ [n; n]
           /\ Forall (fun H => square n H /\ conj_transpose n H = H)
                     (H0 :: Hs)).
Proof.
  intros Hb Ht2 syst n. split.
  - intros k m t Hm Ht.
    destruct (wrapped_hamiltonian_total cis cross_section b d k m t 0%Q
                Hm Ht Ht2) as [H EH].
    exists H. split; [exact EH|].
    destruct (wrapped_hamiltonian_hermitian cis cross_section b d k H EH)
      as [[Hlen Hrows] Hherm].
    fold n in Hlen, Hherm. rewrite Hlen. split; [reflexivity|assumption].
  - intros h p k_x k_y k_z return_grid arr g Hp Hres.
    destruct (hamiltonian_array_blocks (hermitian n) syst h p d k_x k_y k_z
                return_grid arr g) as [H0 [Hs [lead [Hdata [Hall Hshape]]]]];
      try assumption.
    { intros d' k' H EH.
      exact (wrapped_hamiltonian_hermitian cis cross_section b d' k' H EH). }
    exists H0, Hs, lead. repeat split; try assumption.
    rewrite Hshape. f_equal. apply matrix_shape_square.
    inversion Hall as [|? ? [Hsq _] _]. assumption.
Qed.

Definition bulk_builder : Builder :=
  {| builder_symmetry := Translational2 [1; 0]%Q [1 # 2; np_sqrt3 / 2]%Q;
     builder_shape := everywhere;
     builder_hoppings :=
       map (fun k => (k, nnHopping)) (honeycomb_neighbors [] [])
       ++ map (fun k => (k, nnnHopping)) (nnnHoppings_a ++ nnnHoppings_b) |}.

Lemma haldane_bulk_builder : haldane_bulk = Ok bulk_builder.
Proof. reflexivity. Qed.

Lemma haldane_hermitian_witness :
  getattr fixed_bundle "t_2" = Ok 0%Q
  /\ exists H,
       hamiltonian_submatrix
         (finalized cis_cayley (strip_cross_section 2) bulk_builder)
         fixed_bundle [1; 2]%Q = Ok H
       /\ length H = 2
       /\ conj_transpose (length H) H = H.
Proof.
  split; [reflexivity|].
  exact (proj1 (haldane_hermitian cis_cayley honeycomb_neighbors
                  (strip_cross_section 2) 20 "infinite"
                  default_pVecs default_bAtoms bulk_builder fixed_bundle
                  eq_refl eq_refl)
               [1; 2]%Q (1 # 4)%Q 1%Q eq_refl eq_refl).
Defined.

(** With [t_2 = 0] away from the origin the matrix is not real: the
    off-diagonal entries carry the phases of the wrapped bonds. *)
Example bulk_hamiltonian_entries :
  exists H,
    hamiltonian_submatrix (finalize haldane_bulk) fixed_bundle [1; 0]%Q = Ok H
    /\ (Im (nth 1 (nth 0 H []) C0) == 4 # 5)%Q
    /\ (Im (nth 0 (nth 1 H []) C0) == - (4 # 5))%Q.
Proof.
  eexists. split; [vm_compute; reflexivity|].
  split; vm_compute; reflexivity.
Qed.

(** ** C2: the axes of a parameter and momentum sweep *)

Lemma getattr_set_scalar (d : namespace) (key name : string) (v : Q) :
  getattr (dict_set d key (Scalar v)) name
  = if String.eqb key name then Ok v else getattr d name.
Proof.
  unfold getattr. rewrite dict_get_set.
  destruct (String.eqb key name); reflexivity.
Qed.

Lemma product_length (axes : list (list Q)) :
  length (product axes) = fold_right Nat.mul 1 (map (@length Q) axes).
Proof.
  induction axes as [|xs axes IH]; simpl; [reflexivity|].
  rewrite <- IH. generalize (product axes) as pts. intros pts.
  induction xs as [|x xs IHxs]; simpl; [reflexivity|].
  rewrite length_app, length_map, IHxs. reflexivity.
Qed.

Lemma product_two (ks ms : list Q) (pt : list Q) :
  In pt (product [ks; ms]) ->
  exists x y, pt = [x; y] /\ In x ks /\ In y ms.
Proof.
  simpl. intros Hpt.
  apply in_flat_map in Hpt as [x [Hx Hpt]].
  apply in_map_iff in Hpt as [tl [<- Htl]].
  apply in_flat_map in Htl as [y [Hy Htl]].
  simpl in Htl. destruct Htl as [<-|[]]. eauto.
Qed.

Lemma concat_rows_length (n : nat) (H : cmatrix) :
  Forall (fun row => length row = n) H -> length (concat H) = length H * n.
Proof.
  induction 1 as [|row rows Hrow Hrows IH]; simpl; [reflexivity|].
  rewrite length_app, Hrow, IH. reflexivity.
Qed.

Lemma concat_square_length (n : nat) (H : cmatrix) :
  square n H -> length (concat H) = n * n.
Proof.
  intros [Hlen Hrows]. rewrite (concat_rows_length n H Hrows), Hlen.
  reflexivity.
Qed.

Lemma concat_blocks_length (n : nat) (Hs : list cmatrix) :
  Forall (square n) Hs ->
  length (concat (map (@concat C) Hs)) = length Hs * (n * n).
Proof.
  induction 1 as [|H Hs HH HHs IH]; simpl; [reflexivity|].
  rewrite length_app, IH, (concat_square_length n H HH). reflexivity.
Qed.

(** A list comprehension over calls that keep an invariant of the heap and
    succeed under it. *)
Lemma mapM_total {A B} (I : heap -> Prop) (P : B -> Prop) (f : A -> M B)
    (l : list A) :
  (forall a h, In a l -> I h ->
               exists h' b, f a h = (h', Ok b) /\ I h' /\ P b) ->
  forall h, I h ->
            exists h' bs, mapM f l h = (h', Ok bs)
                          /\ length bs = length l /\ Forall P bs /\ I h'.
Proof.
  induction l as [|a l IH]; intros Hf h Hh; simpl.
  - exists h, []. unfold ret. repeat split; [constructor|assumption].
  - destruct (Hf a h (or_introl eq_refl) Hh) as [h1 [b [Ea [Hh1 Hb]]]].
    destruct (IH (fun a' h' Ha' => Hf a' h' (or_intror Ha')) h1 Hh1)
      as [h2 [bs [El [Hlen [Hall Hh2]]]]].
    exists h2, (b :: bs). unfold bind, ret. rewrite Ea, El.
    repeat split; [simpl; congruence|constructor; assumption|assumption].
Qed.

(** The swept branch of [evaluate_grid], with the sorted names and value
    sequences named. *)
Lemma evaluate_grid_sorted (syst : System) (mtl : list Q -> outcome (list Q))
    (pars : ref) (d : namespace) (changing : dict (list Q))
    (names : list string) (values : list (list Q)) (k_x k_y k_z : value)
    (return_grid : bool) :
  changing <> [] ->
  map fst (sorted changing) = names ->
  map snd (sorted changing) = values ->
  evaluate_grid syst mtl pars d changing k_x k_y k_z return_grid
  = (hamiltonians <- mapM (fun value =>
                             hamiltonian syst mtl pars k_x k_y k_z
                                         (combine names value))
                          (product values) ;;
     size <- match hamiltonians with
             | [] => throw IndexError
             | H0 :: _ => ret (matrix_shape H0)
             end ;;
     arr <- lift (np_array_reshape hamiltonians
                                   (map (@length Q) values ++ size)) ;;
     ret (arr, if return_grid then Some (combine names values) else None))%M.
Proof.
  intros Hne <- <-. destruct changing; [contradiction|reflexivity].
Qed.

Section Sweep.

Variable cis : Q -> C.
Variable cross_section : shape_fn -> Symmetry -> Geometry.
Variable b : Builder.

Let syst := finalized cis cross_section b.
Let n := norbs cross_section b.

(** One grid point of a sweep over [k_x] and [m]: the copy receives the two
    values and the matrix is evaluated. *)
Lemma hamiltonian_sweep_point (mtl : list Q -> outcome (list Q)) (h : heap)
    (x0 : namespace) (ks : list Q) (ky kz x y t t2 : Q) (k : list Q) :
  getattr x0 "t" = Ok t ->
  getattr x0 "t_2" = Ok t2 ->
  mtl [x; ky; kz] = Ok k ->
  exists H,
    hamiltonian syst mtl (length h) (Sequence ks) (Scalar ky) (Scalar kz)
                [("k_x", x); ("m", y)] (h ++ [x0])
    = (h ++ [dict_set (dict_set x0 "k_x" (Scalar x)) "m" (Scalar y)], Ok H)
    /\ square n H.
Proof.
  intros Ht Ht2 Hk.
  set (x1 := dict_set (dict_set x0 "k_x" (Scalar x)) "m" (Scalar y)).
  assert (getattr x1 "m" = Ok y) as Hm1.
  { unfold x1. rewrite getattr_set_scalar. reflexivity. }
  assert (getattr x1 "t" = Ok t) as Ht1.
  { unfold x1. rewrite !getattr_set_scalar. exact Ht. }
  assert (getattr x1 "t_2" = Ok t2) as Ht21.
  { unfold x1. rewrite !getattr_set_scalar. exact Ht2. }
  destruct (wrapped_hamiltonian_total cis cross_section b x1 k y t t2
              Hm1 Ht1 Ht21) as [H EH].
  exists H. split.
  - unfold hamiltonian, bind, update_dict, lift, read_dict.
    rewrite nth_error_snoc, heap_write_snoc.
    change (dict_update x0 (map (fun kv => (fst kv, Scalar (snd kv)))
                                [("k_x", x); ("m", y)])) with x1.
    change (values_get [("k_x", x); ("m", y)] "k_x" (Sequence ks)) with (Ok x).
    change (values_get [("k_x", x); ("m", y)] "k_y" (Scalar ky)) with (Ok ky).
    change (values_get [("k_x", x); ("m", y)] "k_z" (Scalar kz)) with (Ok kz).
    cbv beta iota. rewrite Hk, nth_error_snoc.
    change (hamiltonian_submatrix syst x1 k)
      with (wrapped_hamiltonian cis cross_section b x1 k).
    rewrite EH. reflexivity.
  - apply (wrapped_hamiltonian_hermitian cis cross_section b x1 k H EH).
Qed.

(** C2, as the code has it.  When [m] is the only sequence-valued field of
    the bundle (of length L1) and [k_x] is a sequence (of length L2), with
    [t], [t_2], [k_y], [k_z] numbers and the momentum mapping defined on the
    grid, [hamiltonian_array] returns an array of shape (L2, L1, n, n): the
    axes follow the sorted names, [k_x] before [m], and are followed by the
    two matrix axes.  The grid returned with it lists [k_x] first. *)
Theorem sweep_shape (mtl : list Q -> outcome (list Q)) (h : heap) (p : ref)
    (d : namespace) (ms ks : list Q) (ky kz t t2 : Q) (return_grid : bool) :
  make_momentum_to_lattice (builder_symmetry b) = Ok mtl ->
  (forall x, In x ks -> exists k, mtl [x; ky; kz] = Ok k) ->
  nth_error h p = Some d ->
  changing_of_pars d = [("m", ms)] ->
  getattr d "t" = Ok t ->
  getattr d "t_2" = Ok t2 ->
  ms <> [] ->
  ks <> [] ->
  exists arr,
    snd (hamiltonian_array syst (Some p) (Sequence ks) (Scalar ky) (Scalar kz)
                           return_grid h)
    = Ok (arr, if return_grid then Some [("k_x", ks); ("m", ms)] else None)
    /\ shape arr = [length ks; length ms; n; n].
Proof.
  intros Hmake Hmtl Hp Hd Ht Ht2 Hms Hks.
  rewrite (hamiltonian_array_start syst h p d) by assumption.
  change (syst_symmetry syst) with (builder_symmetry b).
  rewrite Hmake, Hd.
  change (add_momenta [("k_x", Sequence ks); ("k_y", Scalar ky);
                       ("k_z", Scalar kz)] [("m", ms)])
    with (Ok [("m", ms); ("k_x", ks)]).
  cbv beta iota.
  rewrite (evaluate_grid_sorted syst mtl (length h) d
             [("m", ms); ("k_x", ks)] ["k_x"; "m"] [ks; ms])
    by (discriminate || reflexivity).
  destruct (mapM_total
              (fun hp => exists x0, hp = h ++ [x0]
                                    /\ getattr x0 "t" = Ok t
                                    /\ getattr x0 "t_2" = Ok t2)
              (square n)
              (fun value => hamiltonian syst mtl (length h) (Sequence ks)
                                        (Scalar ky) (Scalar kz)
                                        (combine ["k_x"; "m"] value))
              (product [ks; ms]))
    with (h := h ++ [d]) as [h' [Hs [Em [Hlen [Hall _]]]]].
  { intros pt hp Hpt [x0 [-> [Hx0t Hx0t2]]].
    apply product_two in Hpt as [x [y [-> [Hx Hy]]]].
    destruct (Hmtl x Hx) as [k Hk].
    destruct (hamiltonian_sweep_point mtl h x0 ks ky kz x y t t2 k
                Hx0t Hx0t2 Hk) as [H [EH Hsq]].
    exists (h ++ [dict_set (dict_set x0 "k_x" (Scalar x)) "m" (Scalar y)]), H.
    split; [exact EH|]. split; [|exact Hsq].
    eexists. split; [reflexivity|].
    rewrite !getattr_set_scalar. split; assumption. }
  { exists d. repeat split; assumption. }
  unfold bind at 1. rewrite Em.
  rewrite product_length in Hlen. simpl in Hlen.
  destruct Hs as [|H0 Hs].
  { exfalso. simpl in Hlen.
    destruct ks; [congruence|]. destruct ms; [congruence|].
    simpl in Hlen. lia. }
  unfold bind, ret, lift, np_array_reshape.
  inversion Hall as [|? ? Hsq0 _]; subst.
  rewrite (matrix_shape_square n H0 Hsq0).
  rewrite (concat_blocks_length n (H0 :: Hs) Hall), Hlen.
  replace (length ks * (length ms * 1) * (n * n)
           =? fold_right Nat.mul 1 (map (@length Q) [ks; ms] ++ [n; n]))
    with true by (symmetry; apply Nat.eqb_eq; simpl; lia).
  eexists. split; reflexivity.
Qed.

End Sweep.

Definition zigzag_builder : Builder :=
  {| builder_symmetry := Translational1 [1; 0]%Q;
     builder_shape := ribbonShapeZigzag 2;
     builder_hoppings := builder_hoppings bulk_builder |}.

Lemma haldane_zigzag_builder : haldane_zigzag = Ok zigzag_builder.
Proof. reflexivity. Qed.

Lemma sweep_shape_witness :
  exists arr,
    snd (hamiltonian_array
           (finalized cis_cayley (strip_cross_section 2) zigzag_builder)
           (Some 0) (Sequence [0; 1; 2]%Q) (Scalar 0) (Scalar 0) true
           [sweep_bundle])
    = Ok (arr, Some [("k_x", [0; 1; 2]%Q); ("m", [0; 1 # 4]%Q)])
    /\ shape arr = [3; 2; 6; 6].
Proof.
  refine (sweep_shape cis_cayley (strip_cross_section 2) zigzag_builder
            (momentum_to_lattice_1 1) [sweep_bundle] 0 sweep_bundle
            [0; 1 # 4]%Q [0; 1; 2]%Q 0%Q 0%Q 1%Q 0%Q true
            eq_refl _ eq_refl eq_refl eq_refl eq_refl _ _).
  - intros x _. exists [x]. reflexivity.
  - discriminate.
  - discriminate.
Defined.

(** Sweeping [m] over two values and [k_x] over three on the bulk system
    gives an array of shape (3, 2, 2, 2): the [k_x] axis comes first, so the
    leading shape is not (len(m), len(k_x)). *)
Lemma sweep_axes_order :
  exists arr,
    snd (hamiltonian_array (finalize haldane_bulk) (Some 0)
           (Sequence [0; 1; 2]%Q) (Scalar 0) (Scalar 0) true [sweep_bundle])
    = Ok (arr, Some [("k_x", [0; 1; 2]%Q); ("m", [0; 1 # 4]%Q)])
    /\ shape arr = [3; 2; 2; 2]
    /\ firstn 2 (shape arr)
       <> [length [0; 1 # 4]%Q; length [0; 1; 2]%Q].
Proof.
  eexists. split; [vm_compute; reflexivity|].
  split; [reflexivity|]. simpl. discriminate.
Qed.

(** * Further properties of the code *)

(** ** [haldaneModel]: validation, boundary and ribbon shapes *)

(** X1.  [haldaneModel] raises the [ValueError] "haldane model must be 2D"
    as soon as one primitive vector or one basis-atom coordinate does not
    have exactly two components, whatever the other arguments are. *)
Theorem haldaneModel_rejects_non_2D
    (lat_neighbors : list vec -> list vec -> list HoppingKind)
    (w : Q) (boundary : string) (pVecs bAtoms : list vec) :
  (exists v, In v pVecs /\ length v <> 2)
  \/ (exists v, In v bAtoms /\ length v <> 2) ->
  haldaneModel lat_neighbors w boundary pVecs bAtoms
  = Raise (ValueError "haldane model must be 2D").
Proof.
  intros Hbad. unfold haldaneModel.
  destruct (existsb (fun v => negb (length v =? 2)) pVecs) eqn:Ep;
    [reflexivity|].
  destruct (existsb (fun v => negb (length v =? 2)) bAtoms) eqn:Eb;
    [reflexivity|].
  exfalso.
  assert (forall l v, existsb (fun v => negb (length v =? 2)) l = false ->
                      In v l -> @length Q v = 2) as Hall.
  { intros l v El Hv.
    destruct (Nat.eqb_spec (length v) 2) as [E|E]; [exact E|].
    assert (existsb (fun v => negb (length v =? 2)) l = true) as Ht.
    { apply existsb_exists. exists v. split; [assumption|].
      apply negb_true_iff, Nat.eqb_neq. assumption. }
    congruence. }
  destruct Hbad as [[v [Hv Hlen]]|[v [Hv Hlen]]]; eauto.
Qed.

Lemma haldaneModel_rejects_non_2D_witness :
  haldaneModel honeycomb_neighbors 20 "zigzag"
               [[1; 0; 0]; [0; 1; 0]]%Q default_bAtoms
  = Raise (ValueError "haldane model must be 2D").
Proof.
  apply haldaneModel_rejects_non_2D.
  left. exists [1; 0; 0]%Q. split; [simpl; auto|simpl; lia].
Defined.

(** X2.  The boundary argument selects the symmetry of the built system:
    'zigzag' gives one translational direction with period (1, 0) and the
    zigzag ribbon shape, 'armchair' one direction with period (0, sqrt(3))
    and the armchair shape, and every other string the two directions of the
    primitive vectors with no restriction on the sites. *)
Theorem haldaneModel_boundary
    (lat_neighbors : list vec -> list vec -> list HoppingKind)
    (w : Q) (boundary : string) (pVecs bAtoms : list vec) (b : Builder) :
  haldaneModel lat_neighbors w boundary pVecs bAtoms = Ok b ->
  (boundary = "zigzag" ->
   builder_symmetry b = Translational1 [1; 0]%Q
   /\ builder_shape b = ribbonShapeZigzag w)
  /\ (boundary = "armchair" ->
      builder_symmetry b = Translational1 [0; np_sqrt3]%Q
      /\ builder_shape b = ribbonShapeArmchair w)
  /\ (boundary <> "zigzag" -> boundary <> "armchair" ->
      periods (builder_symmetry b) = pVecs
      /\ builder_shape b = everywhere)
  /\ num_directions (builder_symmetry b)
     = if String.eqb boundary "zigzag" || String.eqb boundary "armchair"
       then 1 else 2.
Proof.
  unfold haldaneModel.
  destruct (existsb (fun v => negb (length v =? 2)) pVecs); [discriminate|].
  destruct (existsb (fun v => negb (length v =? 2)) bAtoms); [discriminate|].
  destruct pVecs as [|a1 [|a2 [|? ?]]]; try discriminate.
  destruct bAtoms as [|b1 [|b2 [|? ?]]]; try discriminate.
  destruct (String.eqb_spec boundary "zigzag") as [Hz|Hz].
  - intros E. injection E as <-. subst boundary. simpl.
    repeat split; try reflexivity; try discriminate; congruence.
  - destruct (String.eqb_spec boundary "armchair") as [Ha|Ha].
    + intros E. injection E as <-. subst boundary. simpl.
      repeat split; try reflexivity; try discriminate; congruence.
    + intros E. injection E as <-. simpl.
      repeat split; try reflexivity; congruence.
Qed.

Lemma haldaneModel_boundary_witness :
  periods (builder_symmetry bulk_builder) = default_pVecs
  /\ builder_shape bulk_builder = everywhere.
Proof.
  refine (proj1 (proj2 (proj2
            (haldaneModel_boundary honeycomb_neighbors 20 "infinite"
               default_pVecs default_bAtoms bulk_builder eq_refl))) _ _);
    discriminate.
Defined.

(** X3.  The ribbons are grown from the site at the origin.  The origin
    satisfies the zigzag shape for every width [w >= 0], and satisfies the
    armchair shape exactly when [w > 0]. *)
Theorem ribbon_shape_origin (w : Q) :
  ((0 <= w)%Q -> ribbonShapeZigzag_holds w (0, 0)%Q = true)
  /\ (ribbonShapeArmchair_holds w (0, 0)%Q = true <-> (0 < w)%Q).
Proof.
  split.
  - intros Hw. unfold ribbonShapeZigzag_holds. simpl snd.
    apply andb_true_iff. split; [reflexivity|].
    apply negb_true_iff.
    destruct (Qle_bool (np_sqrt3 * w / 2 + (1 # 100)) 0) eqn:E;
      [|reflexivity].
    apply Qle_bool_iff in E. exfalso.
    unfold np_sqrt3 in E.
    assert ((3900231685776981 # 2251799813685248) * w / 2
            == (3900231685776981 # 4503599627370496) * w)%Q as Hhalf
        by (field).
    rewrite Hhalf in E. lra.
  - unfold ribbonShapeArmchair_holds. simpl fst.
    change (Qle_bool (- 1) 0) with true. simpl andb.
    rewrite negb_true_iff. split.
    + intros E. destruct (Qlt_le_dec 0 w) as [Hlt|Hle]; [assumption|].
      apply Qle_bool_iff in Hle. congruence.
    + intros Hlt. destruct (Qle_bool w 0) eqn:E; [|reflexivity].
      apply Qle_bool_iff in E. lra.
Qed.

Lemma ribbon_shape_origin_witness :
  ribbonShapeZigzag_holds 20 (0, 0)%Q = true.
Proof.
  apply (proj1 (ribbon_shape_origin 20)). discriminate.
Defined.

(** ** [spectrum]: momenta, energies and the heap *)

Lemma spectrum_momentum_beyond (dimensionality res j : nat)
    (k : option value) :
  dimensionality <= j -> spectrum_momentum dimensionality res j k = Scalar 0.
Proof.
  intros Hj. unfold spectrum_momentum.
  apply Nat.ltb_ge in Hj. rewrite Hj. reflexivity.
Qed.

(** X4.  On a system with at most one translational direction [spectrum]
    ignores [k_y] and [k_z]: whatever is passed for them, numbers or
    sequences, the call behaves as if they had been left out. *)
Theorem spectrum_ignores_extra_momenta (np_linalg_eigvalsh : ndarray -> rarray)
    (syst : System) (p : option ref) (k_x k_y k_z : option value)
    (res : nat) (return_energies : bool) (h : heap) :
  num_directions (syst_symmetry syst) <= 1 ->
  spectrum np_linalg_eigvalsh syst p k_x k_y k_z res return_energies h
  = spectrum np_linalg_eigvalsh syst p k_x None None res return_energies h.
Proof.
  intros Hdim. unfold spectrum. cbv zeta.
  rewrite (spectrum_momentum_beyond _ res 1 k_y) by lia.
  rewrite (spectrum_momentum_beyond _ res 2 k_z) by lia.
  rewrite (spectrum_momentum_beyond _ res 1 None) by lia.
  rewrite (spectrum_momentum_beyond _ res 2 None) by lia.
  reflexivity.
Qed.

Lemma spectrum_ignores_extra_momenta_witness :
  spectrum eigvalsh_diagonal (finalize haldane_zigzag) (Some 0)
           (Some (Scalar 1)) (Some (Scalar 5)) (Some (Sequence [1; 2]%Q))
           3 true [fixed_bundle]
  = spectrum eigvalsh_diagonal (finalize haldane_zigzag) (Some 0)
             (Some (Scalar 1)) None None 3 true [fixed_bundle].
Proof.
  apply spectrum_ignores_extra_momenta. apply Nat.leb_le. reflexivity.
Defined.

(** X5.  When the grid of [hamiltonian_array] has one or two axes and the
    energies are asked for ([return_energies] true), [spectrum] returns
    [np.linalg.eigvalsh] of exactly the array [hamiltonian_array] returned;
    no plotting code runs on this path. *)
Theorem spectrum_energies (np_linalg_eigvalsh : ndarray -> rarray)
    (syst : System) (p : option ref) (k_x k_y k_z : option value)
    (res : nat) (h : heap) (arr : ndarray) (g : grid) :
  snd (hamiltonian_array syst p
         (spectrum_momentum (num_directions (syst_symmetry syst)) res 0 k_x)
         (spectrum_momentum (num_directions (syst_symmetry syst)) res 1 k_y)
         (spectrum_momentum (num_directions (syst_symmetry syst)) res 2 k_z)
         true h) = Ok (arr, Some g) ->
  length g = 1 \/ length g = 2 ->
  snd (spectrum np_linalg_eigvalsh syst p k_x k_y k_z res true h)
  = Ok (Energies (np_linalg_eigvalsh arr)).
Proof.
  intros Hr Hg. rewrite spectrum_unfold. simpl. rewrite Hr. simpl.
  destruct Hg as [-> | ->]; reflexivity.
Qed.

Lemma spectrum_energies_witness :
  snd (spectrum eigvalsh_diagonal square_lattice None
         (Some (Sequence [0]%Q)) (Some (Scalar 0)) None 3 true [])
  = Ok (Energies (eigvalsh_diagonal {| shape := [1; 1; 1]; data := [C0] |})).
Proof.
  apply (spectrum_energies eigvalsh_diagonal square_lattice None
           (Some (Sequence [0]%Q)) (Some (Scalar 0)) None 3 []
           {| shape := [1; 1; 1]; data := [C0] |} [("k_x", [0]%Q)]).
  - vm_compute. reflexivity.
  - left. reflexivity.
Defined.

(** [hamiltonian_array] only appends one object to the heap. *)
Lemma hamiltonian_array_frame (syst : System) (h : heap) (p : ref)
    (d : namespace) (k_x k_y k_z : value) (return_grid : bool) :
  nth_error h p = Some d ->
  exists x r,
    hamiltonian_array syst (Some p) k_x k_y k_z return_grid h = (h ++ [x], r).
Proof.
  intros Hp.
  rewrite (hamiltonian_array_start syst h p d) by assumption.
  destruct (make_momentum_to_lattice _); [|eauto].
  destruct (add_momenta _ _); [|eauto].
  apply evaluate_grid_frame.
Qed.

Lemma spectrum_heap (np_linalg_eigvalsh : ndarray -> rarray) (syst : System)
    (p : option ref) (k_x k_y k_z : option value) (res : nat)
    (return_energies : bool) (h : heap) :
  fst (spectrum np_linalg_eigvalsh syst p k_x k_y k_z res return_energies h)
  = fst (hamiltonian_array syst p
           (spectrum_momentum (num_directions (syst_symmetry syst)) res 0 k_x)
           (spectrum_momentum (num_directions (syst_symmetry syst)) res 1 k_y)
           (spectrum_momentum (num_directions (syst_symmetry syst)) res 2 k_z)
           true h).
Proof.
  assert (forall r h0,
             fst (spectrum np_linalg_eigvalsh syst (Some r) k_x k_y k_z res
                           return_energies h0)
             = fst (hamiltonian_array syst (Some r)
                      (spectrum_momentum (num_directions (syst_symmetry syst))
                                         res 0 k_x)
                      (spectrum_momentum (num_directions (syst_symmetry syst))
                                         res 1 k_y)
                      (spectrum_momentum (num_directions (syst_symmetry syst))
                                         res 2 k_z)
                      true h0)) as G.
  { intros r h0. unfold spectrum. unfold bind at 1. unfold ret at 1.
    unfold bind at 1.
    destruct (hamiltonian_array syst (Some r) _ _ _ true h0)
      as [h1 [[arr [g|]]|e]]; simpl; try reflexivity.
    unfold bind, ret, throw.
    destruct g as [|v1 [|v2 [|v3 g]]]; simpl;
      destruct return_energies; reflexivity. }
  destruct p as [r|].
  - apply G.
  - rewrite hamiltonian_array_None. rewrite <- G. reflexivity.
Qed.

(** X6.  [spectrum] changes no object the caller holds: after the call,
    whatever its outcome, every object of the heap it was started in is
    where it was and holds the same fields; the call only allocates. *)
Theorem spectrum_leaves_heap (np_linalg_eigvalsh : ndarray -> rarray)
    (syst : System) (h : heap) (p : option ref) (d : namespace)
    (k_x k_y k_z : option value) (res : nat) (return_energies : bool) :
  bundle_of h p = Some d ->
  let h' := fst (spectrum np_linalg_eigvalsh syst p k_x k_y k_z res
                          return_energies h) in
  firstn (length h) h' = h
  /\ forall r x, nth_error h r = Some x -> nth_error h' r = Some x.
Proof.
  intros Hp h'.
  assert (exists l, h' = h ++ l) as [l Hl].
  { unfold h'. rewrite spectrum_heap.
    destruct p as [q|]; simpl in Hp.
    - match goal with
      | |- context [hamiltonian_array syst (Some q) ?a ?b ?c true h] =>
          destruct (hamiltonian_array_frame syst h q d a b c true Hp)
            as [x [r ->]]
      end.
      simpl. eauto.
    - rewrite hamiltonian_array_None.
      match goal with
      | |- context [hamiltonian_array syst (Some ?q) ?a ?b ?c true ?hh] =>
          destruct (hamiltonian_array_frame syst hh q [] a b c true
                      (nth_error_snoc h [])) as [x [r E]]
      end.
      exists ([[]] ++ [x]).
      etransitivity; [exact (f_equal fst E)|].
      exact (eq_sym (app_assoc h [[]] [x])). }
  rewrite Hl. split.
  - rewrite firstn_app, Nat.sub_diag, firstn_all. simpl. apply app_nil_r.
  - intros r x Hr. rewrite nth_error_app1; [assumption|].
    apply nth_error_Some. congruence.
Qed.

Lemma spectrum_leaves_heap_witness :
  let h' := fst (spectrum eigvalsh_diagonal (finalize haldane_bulk) (Some 0)
                   None None None 2 true [sweep_bundle]) in
  firstn (length [sweep_bundle]) h' = [sweep_bundle]
  /\ forall r x, nth_error [sweep_bundle] r = Some x -> nth_error h' r = Some x.
Proof.
  exact (spectrum_leaves_heap eigvalsh_diagonal (finalize haldane_bulk)
           [sweep_bundle] (Some 0) sweep_bundle None None None 2 true eq_refl).
Defined.

(** ** [hamiltonian_array]: edge cases *)

Lemma insert_sorted_In {V} (kv x : string * V) (l : list (string * V)) :
  In x (insert_sorted kv l) <-> x = kv \/ In x l.
Proof.
  induction l as [|kv' l IH]; simpl.
  - intuition congruence.
  - destruct (String.leb (fst kv) (fst kv')); simpl.
    + intuition congruence.
    + rewrite IH. intuition congruence.
Qed.

Lemma sorted_In {V} (x : string * V) (l : list (string * V)) :
  In x (sorted l) <-> In x l.
Proof.
  unfold sorted. induction l as [|kv l IH]; simpl; [reflexivity|].
  rewrite insert_sorted_In, IH. intuition congruence.
Qed.

Lemma product_empty_axis (axes : list (list Q)) :
  In [] axes -> product axes = [].
Proof.
  induction axes as [|xs axes IH]; simpl; [contradiction|].
  intros [->|Hin]; [reflexivity|].
  rewrite (IH Hin). induction xs as [|x xs IHxs]; simpl; auto.
Qed.

(** X7.  An empty swept sequence, be it a field of the bundle or one of the
    momenta, makes [hamiltonian_array] raise [IndexError]: the grid has no
    point, and the size of the first Hamiltonian is asked for. *)
Theorem hamiltonian_array_empty_axis (syst : System) (h : heap) (p : ref)
    (d : namespace) (k_x k_y k_z : value) (return_grid : bool)
    (mtl : list Q -> outcome (list Q)) (changing : dict (list Q))
    (key : string) :
  nth_error h p = Some d ->
  make_momentum_to_lattice (syst_symmetry syst) = Ok mtl ->
  add_momenta [("k_x", k_x); ("k_y", k_y); ("k_z", k_z)] (changing_of_pars d)
  = Ok changing ->
  In (key, []) changing ->
  snd (hamiltonian_array syst (Some p) k_x k_y k_z return_grid h)
  = Raise IndexError.
Proof.
  intros Hp Hm Hc Hin.
  rewrite (hamiltonian_array_start syst h p d) by assumption.
  rewrite Hm, Hc.
  rewrite (evaluate_grid_sorted syst mtl (length h) d changing
             (map fst (sorted changing)) (map snd (sorted changing)))
    by (reflexivity || (intros E; rewrite E in Hin; exact Hin)).
  rewrite product_empty_axis.
  - reflexivity.
  - apply in_map_iff. exists (key, []). split; [reflexivity|].
    apply sorted_In. assumption.
Qed.

Lemma hamiltonian_array_empty_axis_witness :
  snd (hamiltonian_array (finalize haldane_zigzag) (Some 0)
         (Sequence []) (Scalar 0) (Scalar 0) false [fixed_bundle])
  = Raise IndexError.
Proof.
  exact (hamiltonian_array_empty_axis (finalize haldane_zigzag) [fixed_bundle]
           0 fixed_bundle (Sequence []) (Scalar 0) (Scalar 0) false
           (momentum_to_lattice_1 1) [("k_x", [])] "k_x"
           eq_refl eq_refl eq_refl (or_introl eq_refl)).
Defined.

(** ** [hamiltonian_array]: the grid and the leading axes *)

Definition by_name {V} (a b : string * V) : Prop :=
  String.leb (fst a) (fst b) = true.

Lemma insert_sorted_HdRel {V} (x kv : string * V) (l : list (string * V)) :
  by_name x kv -> HdRel by_name x l -> HdRel by_name x (insert_sorted kv l).
Proof.
  intros Hx Hl. destruct l as [|kv' l]; simpl.
  - constructor. assumption.
  - destruct (String.leb (fst kv) (fst kv')); constructor;
      [assumption|]. inversion Hl. assumption.
Qed.

Lemma insert_sorted_Sorted {V} (kv : string * V) (l : list (string * V)) :
  Sorted by_name l -> Sorted by_name (insert_sorted kv l).
Proof.
  induction 1 as [|kv' l Hl IH Hhd]; simpl.
  - repeat constructor.
  - destruct (String.leb (fst kv) (fst kv')) eqn:E.
    + constructor; [constructor; assumption|]. constructor. exact E.
    + constructor; [assumption|].
      apply insert_sorted_HdRel; [|assumption].
      unfold by_name. destruct (String.leb_total (fst kv) (fst kv'));
        [congruence|assumption].
Qed.

Lemma sorted_Sorted {V} (l : list (string * V)) : Sorted by_name (sorted l).
Proof.
  unfold sorted. induction l as [|kv l IH]; simpl.
  - constructor.
  - apply insert_sorted_Sorted. assumption.
Qed.

Lemma insert_sorted_Permutation {V} (kv : string * V)
    (l : list (string * V)) :
  Permutation (insert_sorted kv l) (kv :: l).
Proof.
  induction l as [|kv' l IH]; simpl.
  - reflexivity.
  - destruct (String.leb (fst kv) (fst kv')); [reflexivity|].
    rewrite IH. apply perm_swap.
Qed.

Lemma sorted_Permutation {V} (l : list (string * V)) :
  Permutation (sorted l) l.
Proof.
  unfold sorted. induction l as [|kv l IH]; simpl.
  - reflexivity.
  - rewrite insert_sorted_Permutation. constructor. assumption.
Qed.

Lemma combine_fst_snd {A B} (l : list (A * B)) :
  combine (map fst l) (map snd l) = l.
Proof.
  induction l as [|[a b] l IH]; simpl; [reflexivity|].
  rewrite IH. reflexivity.
Qed.

(** The grid returned on request is the sorted list of the swept axes. *)
Lemma evaluate_grid_axes (syst : System) (mtl : list Q -> outcome (list Q))
    (pars : ref) (d : namespace) (changing : dict (list Q))
    (k_x k_y k_z : value) (h h' : heap) (arr : ndarray) (g : option grid) :
  evaluate_grid syst mtl pars d changing k_x k_y k_z true h
  = (h', Ok (arr, g)) ->
  g = Some (sorted changing).
Proof.
  unfold evaluate_grid. destruct changing as [|c changing].
  - unfold bind, lift, ret.
    destruct (as_scalar k_x); [|discriminate].
    destruct (as_scalar k_y); [|discriminate].
    destruct (as_scalar k_z); [|discriminate].
    destruct (mtl _); [|discriminate].
    destruct (hamiltonian_submatrix syst d _); [|discriminate].
    intros E. injection E as _ _ <-. reflexivity.
  - unfold bind at 1.
    destruct (mapM _ _ h) as [h1 [Hs|e]]; [|discriminate].
    unfold bind, throw, ret, lift.
    destruct Hs as [|H0 Hs]; [discriminate|].
    destruct (np_array_reshape _ _); [|discriminate].
    intros E. injection E as _ _ <-.
    rewrite combine_fst_snd. reflexivity.
Qed.

(** X8.  When [hamiltonian_array] is asked for the grid and returns, the
    grid lists exactly the swept axes (the sequence-valued fields of the
    bundle and the sequence-valued momenta), each once, ordered by name; and
    the shape of the array starts with the lengths of these axes in that
    order (or with a single axis of length one when nothing is swept),
    followed by the shape of the first Hamiltonian. *)
Theorem hamiltonian_array_grid (syst : System) (h : heap) (p : ref)
    (d : namespace) (k_x k_y k_z : value) (arr : ndarray) (g : option grid) :
  nth_error h p = Some d ->
  snd (hamiltonian_array syst (Some p) k_x k_y k_z true h) = Ok (arr, g) ->
  exists changing axes H0,
    add_momenta [("k_x", k_x); ("k_y", k_y); ("k_z", k_z)]
                (changing_of_pars d) = Ok changing
    /\ g = Some axes
    /\ Permutation axes changing
    /\ Sorted by_name axes
    /\ shape arr
       = match axes with
         | [] => [1]
         | _ :: _ => map (fun a => length (snd a)) axes
         end ++ matrix_shape H0.
Proof.
  intros Hp.
  rewrite (hamiltonian_array_start syst h p d) by assumption.
  destruct (make_momentum_to_lattice _) as [mtl|e]; [|discriminate].
  destruct (add_momenta _ _) as [changing|e]; [|discriminate].
  destruct (evaluate_grid _ _ _ _ _ _ _ _ _ _) as [h' [[arr' g']|e]] eqn:E;
    [|discriminate].
  simpl. intros E'. injection E' as -> ->.
  pose proof (evaluate_grid_axes _ _ _ _ _ _ _ _ _ _ _ _ E) as Hg.
  destruct (evaluate_grid_blocks (fun _ => True) _ _ _ _ _ _ _ _ _ _ _ _ _
              (fun _ _ _ _ => I) E) as [H0 [Hs [_ [_ [Hshape _]]]]].
  exists changing, (sorted changing), H0.
  split; [reflexivity|]. split; [assumption|].
  split; [apply sorted_Permutation|]. split; [apply sorted_Sorted|].
  rewrite Hshape. f_equal.
  destruct changing as [|c changing]; [reflexivity|].
  rewrite map_map.
  destruct (sorted (c :: changing)) as [|a axes] eqn:Es; [|reflexivity].
  pose proof (sorted_Permutation (c :: changing)) as Hperm.
  rewrite Es in Hperm. apply Permutation_nil in Hperm. discriminate.
Qed.

Definition m_bundle : namespace := [("m", Sequence [0; 1 # 4]%Q)].

Lemma hamiltonian_array_grid_witness :
  exists changing axes H0,
    add_momenta [("k_x", Sequence [0; 1; 2]%Q); ("k_y", Scalar 0);
                 ("k_z", Scalar 0)] (changing_of_pars m_bundle)
    = Ok changing
    /\ Some [("k_x", [0; 1; 2]%Q); ("m", [0; 1 # 4]%Q)] = Some axes
    /\ Permutation axes changing
    /\ Sorted by_name axes
    /\ [3; 2; 1; 1]
       = match axes with
         | [] => [1]
         | _ :: _ => map (fun a => length (snd a)) axes
         end ++ matrix_shape H0.
Proof.
  apply (hamiltonian_array_grid square_lattice [m_bundle] 0 m_bundle
           (Sequence [0; 1; 2]%Q) (Scalar 0) (Scalar 0)
           {| shape := [3; 2; 1; 1]; data := repeat C0 6 |}
           (Some [("k_x", [0; 1; 2]%Q); ("m", [0; 1 # 4]%Q)]) eq_refl).
  vm_compute. reflexivity.
Defined.

(** ** [h_k] and systems without translational symmetry *)

(** X9.  For a wrapped model and a bundle without sequence-valued fields,
    [h_k(syst, p, k)] returns the Hamiltonian matrix at the momentum
    [(k, 0, 0)] mapped to lattice coordinates: the first (and only) block of
    the array of [hamiltonian_array]. *)
Theorem h_k_fixed_momentum (cis : Q -> C)
    (cross_section : shape_fn -> Symmetry -> Geometry) (b : Builder)
    (mtl : list Q -> outcome (list Q)) (h : heap) (p : ref) (d : namespace)
    (x : Q) (k : list Q) (H : cmatrix) :
  nth_error h p = Some d ->
  changing_of_pars d = [] ->
  make_momentum_to_lattice (builder_symmetry b) = Ok mtl ->
  mtl [x; 0; 0]%Q = Ok k ->
  hamiltonian_submatrix (finalized cis cross_section b) d k = Ok H ->
  snd (h_k (finalized cis cross_section b) (Some p) (Scalar x) h)
  = Ok (concat H).
Proof.
  intros Hp Hd Hm Hk HH.
  unfold h_k, bind.
  rewrite (hamiltonian_array_fixed_point (finalized cis cross_section b)
             h p d x 0 0 false mtl Hp Hd Hm).
  rewrite Hk, HH. simpl.
  destruct (wrapped_hamiltonian_hermitian cis cross_section b d k H HH)
    as [Hsq _].
  pose proof (concat_square_length _ H Hsq) as Hlen.
  destruct Hsq as [Hl Hrows].
  assert (length (hd [] H) = length H) as Hhd.
  { destruct H as [|row H]; [reflexivity|].
    inversion Hrows; subst. simpl in *. lia. }
  rewrite Hhd, firstn_all2 by (rewrite Hlen, Hl; lia).
  reflexivity.
Qed.

Lemma h_k_fixed_momentum_witness :
  exists H,
    hamiltonian_submatrix
      (finalized cis_cayley (strip_cross_section 2) zigzag_builder)
      fixed_bundle [1]%Q = Ok H
    /\ snd (h_k (finalized cis_cayley (strip_cross_section 2) zigzag_builder)
              (Some 0) (Scalar 1) [fixed_bundle])
       = Ok (concat H).
Proof.
  destruct (wrapped_hamiltonian_total cis_cayley (strip_cross_section 2)
              zigzag_builder fixed_bundle [1]%Q (1 # 4) 1 0
              eq_refl eq_refl eq_refl) as [H EH].
  exists H. split; [exact EH|].
  exact (h_k_fixed_momentum cis_cayley (strip_cross_section 2) zigzag_builder
           (momentum_to_lattice_1 1) [fixed_bundle] 0 fixed_bundle 1 [1]%Q H
           eq_refl eq_refl eq_refl eq_refl EH).
Defined.

Lemma mapM_ext {A B} (f g : A -> M B) (l : list A) :
  (forall a h, f a h = g a h) -> forall h, mapM f l h = mapM g l h.
Proof.
  intros Hfg. induction l as [|a l IH]; intros h; simpl; [reflexivity|].
  unfold bind. rewrite Hfg. destruct (g a h) as [h1 [b|e]]; [|reflexivity].
  rewrite IH. reflexivity.
Qed.

Lemma hamiltonian_no_momentum (syst : System) (pars : ref)
    (x y z x' y' z' : Q) (values : dict Q) (h : heap) :
  hamiltonian syst (fun _ => Ok []) pars (Scalar x) (Scalar y) (Scalar z)
              values h
  = hamiltonian syst (fun _ => Ok []) pars (Scalar x') (Scalar y') (Scalar z')
                values h.
Proof.
  unfold hamiltonian, bind, lift, values_get.
  destruct (update_dict pars _ h) as [h1 [u|e]]; [|reflexivity].
  destruct (dict_get values "k_x"), (dict_get values "k_y"),
    (dict_get values "k_z"); reflexivity.
Qed.

(** X10.  For a system without translational symmetry the momenta play no
    role: a call of [hamiltonian_array] with numbers for [k_x], [k_y], [k_z]
    has the same result and the same effect as the call with all three at
    zero, whether or not parameters are swept. *)
Theorem finite_system_ignores_momenta (syst : System) (p : option ref)
    (x y z : Q) (return_grid : bool) (h : heap) :
  num_directions (syst_symmetry syst) = 0 ->
  hamiltonian_array syst p (Scalar x) (Scalar y) (Scalar z) return_grid h
  = hamiltonian_array syst p (Scalar 0) (Scalar 0) (Scalar 0) return_grid h.
Proof.
  intros Hdim.
  assert (make_momentum_to_lattice (syst_symmetry syst)
          = Ok (fun _ => Ok [])) as Hm.
  { unfold make_momentum_to_lattice. rewrite Hdim. reflexivity. }
  unfold hamiltonian_array, bind.
  destruct (match p with Some r => ret r | None => new_namespace end h)
    as [h0 [r|e]]; [|reflexivity].
  destruct (copy r h0) as [h1 [pars|e]]; [|reflexivity].
  rewrite Hm. unfold lift.
  destruct (read_dict pars h1) as [h2 [d|e]]; [|reflexivity].
  change (add_momenta [("k_x", Scalar x); ("k_y", Scalar y); ("k_z", Scalar z)]
                      (changing_of_pars d))
    with (add_momenta [("k_x", Scalar 0); ("k_y", Scalar 0); ("k_z", Scalar 0)]
                      (changing_of_pars d)).
  destruct (add_momenta _ _) as [changing|e]; [|reflexivity].
  unfold evaluate_grid. destruct changing as [|c changing].
  - reflexivity.
  - unfold bind at 1. unfold bind at 4.
    rewrite (mapM_ext
               (fun value => hamiltonian syst (fun _ => Ok []) pars (Scalar x)
                                         (Scalar y) (Scalar z) (combine _ value))
               (fun value => hamiltonian syst (fun _ => Ok []) pars (Scalar 0)
                                         (Scalar 0) (Scalar 0) (combine _ value)))
      by (intros; apply hamiltonian_no_momentum).
    reflexivity.
Qed.

(** A single site with onsite energy [p.m] and no symmetry. *)
Definition single_site : System :=
  {| syst_symmetry := NoSymmetry;
     hamiltonian_submatrix :=
       fun pars _ => (m <- getattr pars "m" ;; Ok [[ofQ m]])%out |}.

Lemma finite_system_ignores_momenta_witness :
  hamiltonian_array single_site (Some 0) (Scalar 1) (Scalar 2) (Scalar 3)
                    true [sweep_bundle]
  = hamiltonian_array single_site (Some 0) (Scalar 0) (Scalar 0) (Scalar 0)
                      true [sweep_bundle].
Proof.
  apply finite_system_ignores_momenta. reflexivity.
Defined.

(** X11.  A wrapped model with at least one site cannot be evaluated without
    a parameter bundle: [hamiltonian_array] with [p=None] works on a new,
    empty namespace, the onsite function finds no [m] there, and the call
    raises. *)
Theorem hamiltonian_array_without_bundle (cis : Q -> C)
    (cross_section : shape_fn -> Symmetry -> Geometry) (b : Builder)
    (x y z : Q) (return_grid : bool) (h : heap) :
  norbs cross_section b <> 0 ->
  exists e,
    snd (hamiltonian_array (finalized cis cross_section b) None
           (Scalar x) (Scalar y) (Scalar z) return_grid h) = Raise e.
Proof.
  intros Hsites.
  rewrite hamiltonian_array_None.
  rewrite (hamiltonian_array_start _ (h ++ [[]]) (length h) [])
    by apply nth_error_snoc.
  destruct (make_momentum_to_lattice _) as [mtl|e]; [|simpl; eauto].
  simpl. unfold bind, lift, ret. simpl.
  destruct (mtl _) as [k|e]; [|simpl; eauto].
  unfold wrapped_hamiltonian, norbs in *.
  destruct (fd_sites (geometry cross_section b)) as [|s sites];
    [contradiction|].
  simpl. eauto.
Qed.

Lemma hamiltonian_array_without_bundle_witness :
  exists e,
    snd (hamiltonian_array
           (finalized cis_cayley (strip_cross_section 2) bulk_builder) None
           (Scalar 0) (Scalar 0) (Scalar 0) false []) = Raise e.
Proof.
  apply hamiltonian_array_without_bundle. discriminate.
Defined.

(** ** [spectrum]: a call with three axes *)

Lemma spectrum_many_axes_plot_witness :
  snd (spectrum eigvalsh_diagonal square_lattice (Some 0) None None None 1
                false [m_bundle])
  = Raise (ValueError "Cannot make 4D plots yet.").
Proof.
  apply (spectrum_many_axes_plot eigvalsh_diagonal square_lattice (Some 0)
           None None None 1 [m_bundle]
           {| shape := [1; 1; 2; 1; 1]; data := [C0; C0] |}
           [("k_x", np_linspace (- np_pi) np_pi 1);
            ("k_y", np_linspace (- np_pi) np_pi 1);
            ("m", [0; 1 # 4]%Q)]).
  - vm_compute. reflexivity.
  - simpl. lia.
Defined.

(** ** [hamiltonian_array]: what each block of a sweep is *)

Lemma dict_get_app {V} (d1 d2 : dict V) (name : string) :
  dict_get (d1 ++ d2) name
  = match dict_get d1 name with
    | Some v => Some v
    | None => dict_get d2 name
    end.
Proof.
  induction d1 as [|[k v] d1 IH]; simpl; [reflexivity|].
  destruct (String.eqb k name); [reflexivity|apply IH].
Qed.

(** After [d.update(other)] a key of [other] holds the value [other] gives
    it last, and every other key holds what it held. *)
Lemma dict_get_update {V} (other d : dict V) (name : string) :
  dict_get (dict_update d other) name
  = match dict_get (rev other) name with
    | Some v => Some v
    | None => dict_get d name
    end.
Proof.
  unfold dict_update. revert d.
  induction other as [|[k v] other IH]; intros d; simpl; [reflexivity|].
  rewrite IH, dict_get_app, dict_get_set. simpl.
  destruct (dict_get (rev other) name); [reflexivity|].
  destruct (String.eqb k name); reflexivity.
Qed.

Lemma dict_get_None {V} (d : dict V) (name : string) :
  dict_get d name = None <-> ~ In name (map fst d).
Proof.
  induction d as [|[k v] d IH]; simpl.
  - intuition.
  - destruct (String.eqb_spec k name) as [->|Hne].
    + split; [discriminate|]. intros H. exfalso. apply H. left. reflexivity.
    + rewrite IH. intuition.
Qed.

(** The grid point written into the copy, as scalar fields. *)
Definition point_fields (values : dict Q) : namespace :=
  map (fun kv => (fst kv, Scalar (snd kv))) values.

Lemma point_fields_keys (values : dict Q) :
  map fst (point_fields values) = map fst values.
Proof.
  unfold point_fields. rewrite map_map. reflexivity.
Qed.

Lemma dict_get_update_other (values : dict Q) (d : namespace) (name : string) :
  ~ In name (map fst values) ->
  dict_get (dict_update d (point_fields values)) name = dict_get d name.
Proof.
  intros Hout. rewrite dict_get_update.
  assert (dict_get (rev (point_fields values)) name = None) as ->;
    [|reflexivity].
  apply dict_get_None. rewrite map_rev, point_fields_keys.
  intros Hin. apply Hout. apply in_rev. assumption.
Qed.

Lemma product_point_length (axes : list (list Q)) (pt : list Q) :
  In pt (product axes) -> length pt = length axes.
Proof.
  revert pt. induction axes as [|xs axes IH]; simpl; intros pt Hpt.
  - destruct Hpt as [<-|[]]. reflexivity.
  - apply in_flat_map in Hpt as [x [_ Hpt]].
    apply in_map_iff in Hpt as [tl [<- Htl]].
    simpl. f_equal. apply IH. assumption.
Qed.

Lemma combine_keys {A B} (names : list A) (pt : list B) :
  length pt = length names -> map fst (combine names pt) = names.
Proof.
  revert pt. induction names as [|a names IH]; intros [|b pt] Hlen;
    simpl in *; try discriminate; [reflexivity|].
  f_equal. apply IH. congruence.
Qed.

(** A list comprehension over calls that keep an invariant of the heap: the
    results are related to the arguments one by one. *)
Lemma mapM_Forall2 {A B} (I : heap -> Prop) (P : A -> B -> Prop)
    (f : A -> M B) (l : list A) :
  (forall a h h' b, In a l -> I h -> f a h = (h', Ok b) -> I h' /\ P a b) ->
  forall h h' bs,
    I h -> mapM f l h = (h', Ok bs) -> Forall2 P l bs /\ I h'.
Proof.
  induction l as [|a l IH]; intros Hf h h' bs Hh; simpl.
  - unfold ret. intros E. injection E as <- <-. split; [constructor|assumption].
  - unfold bind.
    destruct (f a h) as [h1 [b|e]] eqn:Ea; [|discriminate].
    destruct (mapM f l h1) as [h2 [bs'|e]] eqn:El; [|discriminate].
    unfold ret. intros E. injection E as <- <-.
    destruct (Hf a h h1 b (or_introl eq_refl) Hh Ea) as [Hh1 Hab].
    destruct (IH (fun a' u u' b' Ha' => Hf a' u u' b' (or_intror Ha'))
                 h1 h2 bs' Hh1 El) as [Hall Hh2].
    split; [constructor; assumption|assumption].
Qed.

(** What one call of the inner function [hamiltonian] does. *)
Lemma hamiltonian_step (syst : System) (mtl : list Q -> outcome (list Q))
    (h : heap) (x : namespace) (k_x k_y k_z : value) (values : dict Q)
    (h' : heap) (H : cmatrix) :
  hamiltonian syst mtl (length h) k_x k_y k_z values (h ++ [x]) = (h', Ok H) ->
  h' = h ++ [dict_update x (point_fields values)]
  /\ exists kx ky kz k,
       values_get values "k_x" k_x = Ok kx
       /\ values_get values "k_y" k_y = Ok ky
       /\ values_get values "k_z" k_z = Ok kz
       /\ mtl [kx; ky; kz] = Ok k
       /\ hamiltonian_submatrix syst (dict_update x (point_fields values)) k
          = Ok H.
Proof.
  unfold hamiltonian, bind, update_dict, lift, read_dict.
  rewrite nth_error_snoc, heap_write_snoc.
  fold (point_fields values).
  destruct (values_get values "k_x" k_x) as [kx|e]; [|discriminate].
  destruct (values_get values "k_y" k_y) as [ky|e]; [|discriminate].
  destruct (values_get values "k_z" k_z) as [kz|e]; [|discriminate].
  destruct (mtl _) as [k|e] eqn:Ek; [|discriminate].
  rewrite nth_error_snoc.
  intros E. injection E as <- E.
  split; [reflexivity|]. exists kx, ky, kz, k. repeat split; assumption.
Qed.

(** The Hamiltonian at one grid point: the bundle [x] it is evaluated on
    holds, under every name, what the caller's bundle [d] holds once the
    point's values are written into it, and the momentum is taken from the
    point where it is swept and from the arguments otherwise. *)
Definition block_at (syst : System) (mtl : list Q -> outcome (list Q))
    (d : namespace) (k_x k_y k_z : value) (names : list string)
    (pt : list Q) (H : cmatrix) : Prop :=
  let values := combine names pt in
  exists x kx ky kz k,
    (forall name,
        dict_get x name
        = dict_get (dict_update d (point_fields values)) name)
    /\ values_get values "k_x" k_x = Ok kx
    /\ values_get values "k_y" k_y = Ok ky
    /\ values_get values "k_z" k_z = Ok kz
    /\ mtl [kx; ky; kz] = Ok k
    /\ hamiltonian_submatrix syst x k = Ok H.

(** X14.  When a sweep returns, the array is the concatenation of one
    Hamiltonian per grid point, in the order of [itertools.product] over the
    axes sorted by name (last axis fastest); the Hamiltonian of a point is
    evaluated on the caller's fields with the swept ones replaced by the
    point's values, at the momentum of that point. *)
Theorem hamiltonian_array_sweep_blocks (syst : System) (h : heap) (p : ref)
    (d : namespace) (k_x k_y k_z : value) (return_grid : bool)
    (mtl : list Q -> outcome (list Q)) (changing : dict (list Q))
    (arr : ndarray) (g : option grid) :
  nth_error h p = Some d ->
  make_momentum_to_lattice (syst_symmetry syst) = Ok mtl ->
  add_momenta [("k_x", k_x); ("k_y", k_y); ("k_z", k_z)] (changing_of_pars d)
  = Ok changing ->
  changing <> [] ->
  snd (hamiltonian_array syst (Some p) k_x k_y k_z return_grid h)
  = Ok (arr, g) ->
  exists Hs,
    data arr = concat (map (@concat C) Hs)
    /\ Forall2 (block_at syst mtl d k_x k_y k_z (map fst (sorted changing)))
               (product (map snd (sorted changing))) Hs.
Proof.
  intros Hp Hm Hc Hne.
  rewrite (hamiltonian_array_start syst h p d) by assumption.
  rewrite Hm, Hc.
  set (names := map fst (sorted changing)).
  set (values := map snd (sorted changing)).
  rewrite (evaluate_grid_sorted syst mtl (length h) d changing names values)
    by (assumption || reflexivity).
  unfold bind at 1.
  destruct (mapM _ (product values) (h ++ [d])) as [h1 [Hs|e]] eqn:Em;
    [|discriminate].
  apply (mapM_Forall2
           (fun hp => exists x, hp = h ++ [x]
                                /\ forall name, ~ In name names ->
                                                dict_get x name = dict_get d name)
           (block_at syst mtl d k_x k_y k_z names)) in Em.
  - destruct Em as [Hblocks _].
    unfold bind, throw, ret, lift.
    destruct Hs as [|H0 Hs]; [discriminate|].
    unfold np_array_reshape. destruct (_ =? _); [|discriminate].
    simpl. intros E. injection E as <- _.
    exists (H0 :: Hs). split; [reflexivity|assumption].
  - intros pt hp hp' H Hpt [x [-> Hx]] Estep.
    assert (map fst (combine names pt) = names) as Hkeys.
    { apply combine_keys. rewrite (product_point_length values pt Hpt).
      unfold names, values. rewrite !length_map. reflexivity. }
    apply hamiltonian_step in Estep
      as [-> [kx [ky [kz [k [Ex [Ey [Ez [Ek EH]]]]]]]]].
    split.
    + eexists. split; [reflexivity|].
      intros name Hout. rewrite dict_get_update_other by (rewrite Hkeys; exact Hout).
      apply Hx. assumption.
    + exists (dict_update x (point_fields (combine names pt))), kx, ky, kz, k.
      repeat split; try assumption.
      intros name. rewrite !dict_get_update.
      destruct (dict_get (rev (point_fields (combine names pt))) name) eqn:En;
        [reflexivity|].
      apply Hx. apply dict_get_None in En.
      rewrite map_rev, point_fields_keys, Hkeys in En.
      intros Hin. apply En. apply in_rev in Hin. assumption.
  - exists d. split; [reflexivity|]. intros; reflexivity.
Qed.

Lemma hamiltonian_array_sweep_blocks_witness :
  exists Hs,
    repeat C0 6 = concat (map (@concat C) Hs)
    /\ Forall2 (block_at square_lattice
                  (momentum_to_lattice_2 [[1; 0]; [0; 1]]%Q 2) m_bundle
                  (Sequence [0; 1; 2]%Q) (Scalar 0) (Scalar 0)
                  (map fst (sorted [("m", [0; 1 # 4]%Q);
                                    ("k_x", [0; 1; 2]%Q)])))
               (product (map snd (sorted [("m", [0; 1 # 4]%Q);
                                          ("k_x", [0; 1; 2]%Q)]))) Hs.
Proof.
  apply (hamiltonian_array_sweep_blocks square_lattice [m_bundle] 0 m_bundle
           (Sequence [0; 1; 2]%Q) (Scalar 0) (Scalar 0) true
           (momentum_to_lattice_2 [[1; 0]; [0; 1]]%Q 2)
           [("m", [0; 1 # 4]%Q); ("k_x", [0; 1; 2]%Q)]
           {| shape := [3; 2; 1; 1]; data := repeat C0 6 |}
           (Some [("k_x", [0; 1; 2]%Q); ("m", [0; 1 # 4]%Q)])
           eq_refl eq_refl eq_refl).
  - discriminate.
  - vm_compute. reflexivity.
Defined.

(** ** Sweeps of the Haldane model always return *)

Lemma dict_get_In {V} (d : dict V) (name : string) (v : V) :
  dict_get d name = Some v -> In (name, v) d.
Proof.
  induction d as [|[k w] d IH]; simpl; [discriminate|].
  destruct (String.eqb_spec k name) as [->|Hne].
  - intros E. injection E as ->. left. reflexivity.
  - intros E. right. apply IH. assumption.
Qed.

Lemma dict_mem_keys {V} (d : dict V) (name : string) :
  dict_mem d name = true <-> In name (map fst d).
Proof.
  unfold dict_mem. pose proof (dict_get_None d name) as Hn.
  destruct (dict_get d name).
  - split; [|reflexivity]. intros _.
    destruct (in_dec string_dec name (map fst d)) as [Hin|Hout];
      [assumption|]. apply Hn in Hout. discriminate.
  - split; [discriminate|]. intros Hin. exfalso.
    apply (proj1 Hn eq_refl). assumption.
Qed.

Lemma with_axis_keeps (key key' : string) (v : value)
    (changing : dict (list Q)) :
  dict_mem changing key' = true ->
  dict_mem (with_axis key v changing) key' = true.
Proof.
  intros Hmem. destruct v as [x|xs]; simpl; [assumption|].
  rewrite dict_mem_set, Hmem. apply orb_true_r.
Qed.

Lemma with_axis_sequence (key : string) (xs : list Q)
    (changing : dict (list Q)) :
  dict_mem (with_axis key (Sequence xs) changing) key = true.
Proof.
  simpl. rewrite dict_mem_set, String.eqb_refl. reflexivity.
Qed.

(** The momenta and fields that end up among the swept axes. *)
Lemma add_momenta_keys (d : namespace) (k_x k_y k_z : value)
    (changing : dict (list Q)) :
  add_momenta [("k_x", k_x); ("k_y", k_y); ("k_z", k_z)] (changing_of_pars d)
  = Ok changing ->
  (forall name, holds_sequence d name = true -> In name (map fst changing))
  /\ (isIterable k_x = true -> In "k_x" (map fst changing))
  /\ (isIterable k_y = true -> In "k_y" (map fst changing))
  /\ (isIterable k_z = true -> In "k_z" (map fst changing)).
Proof.
  rewrite add_momenta_reserved.
  destruct (dict_mem (changing_of_pars d) "k_x"); [discriminate|].
  destruct (dict_mem (changing_of_pars d) "k_y"); [discriminate|].
  destruct (dict_mem (changing_of_pars d) "k_z"); [discriminate|].
  intros E. injection E as <-.
  repeat split.
  - intros name Hseq. apply dict_mem_keys.
    do 3 apply with_axis_keeps.
    rewrite changing_of_pars_mem. assumption.
  - destruct k_x; [discriminate|]. intros _. apply dict_mem_keys.
    do 2 apply with_axis_keeps. apply with_axis_sequence.
  - destruct k_y; [discriminate|]. intros _. apply dict_mem_keys.
    apply with_axis_keeps. apply with_axis_sequence.
  - destruct k_z; [discriminate|]. intros _. apply dict_mem_keys.
    apply with_axis_sequence.
Qed.

Lemma values_get_total (values : dict Q) (name : string) (default : value) :
  (isIterable default = true -> In name (map fst values)) ->
  exists x, values_get values name default = Ok x.
Proof.
  intros Hswept. unfold values_get.
  destruct (dict_get values name) as [x|] eqn:E; [eauto|].
  destruct default as [x|xs]; simpl; [eauto|].
  apply dict_get_None in E. exfalso. apply E. apply Hswept. reflexivity.
Qed.

Lemma point_fields_scalar (values : dict Q) (name : string) :
  In name (map fst values) ->
  exists v, dict_get (rev (point_fields values)) name = Some (Scalar v).
Proof.
  intros Hin.
  destruct (dict_get (rev (point_fields values)) name) as [v|] eqn:E.
  - apply dict_get_In, in_rev in E. unfold point_fields in E.
    apply in_map_iff in E as [[k q] [E _]]. injection E as _ <-. eauto.
  - apply dict_get_None in E. exfalso. apply E.
    rewrite map_rev, point_fields_keys. apply in_rev.
    rewrite rev_involutive. assumption.
Qed.

(** A field that exists and is not swept is a number. *)
Lemma unswept_field_scalar (d : namespace) (name : string) :
  dict_get d name <> None ->
  holds_sequence d name = false ->
  exists v, dict_get d name = Some (Scalar v).
Proof.
  intros Hsome Hseq.
  destruct (dict_get d name) as [[v|xs]|] eqn:E; [eauto| |contradiction].
  apply dict_get_In in E.
  assert (holds_sequence d name = true) as Ht
      by (apply holds_sequence_In; eauto).
  congruence.
Qed.

Lemma fold_right_mul_app (l1 l2 : list nat) :
  fold_right Nat.mul 1 (l1 ++ l2)
  = fold_right Nat.mul 1 l1 * fold_right Nat.mul 1 l2.
Proof.
  induction l1 as [|a l1 IH]; simpl; [lia|]. rewrite IH. lia.
Qed.

Lemma product_nonempty (axes : list (list Q)) :
  Forall (fun xs => xs <> []) axes -> product axes <> [].
Proof.
  induction 1 as [|xs axes Hxs Haxes IH]; simpl; [discriminate|].
  destruct xs as [|x xs]; [contradiction|]. simpl.
  destruct (product axes); [contradiction|]. discriminate.
Qed.

(** The fields of the bundle that the value functions of the model read. *)
Definition haldane_fields : list string := ["m"; "t"; "t_2"].

Lemma sorted_keys {V} (l : list (string * V)) (name : string) :
  In name (map fst l) -> In name (map fst (sorted l)).
Proof.
  intros Hin. apply in_map_iff in Hin as [[k v] [<- Hin]].
  apply in_map_iff. exists (k, v). split; [reflexivity|].
  apply sorted_In. assumption.
Qed.

Section HaldaneSweep.

Variable cis : Q -> C.
Variable cross_section : shape_fn -> Symmetry -> Geometry.
Variable b : Builder.

Let syst := finalized cis cross_section b.
Let n := norbs cross_section b.

Variable mtl : list Q -> outcome (list Q).
Variable d : namespace.
Variables k_x k_y k_z : value.
Variable names : list string.

Hypothesis mtl_total : forall k, length k = 3 -> exists k', mtl k = Ok k'.
Hypothesis fields_present :
  forall name, In name haldane_fields -> dict_get d name <> None.
Hypothesis swept_fields :
  forall name, holds_sequence d name = true -> In name names.
Hypothesis swept_k_x : isIterable k_x = true -> In "k_x" names.
Hypothesis swept_k_y : isIterable k_y = true -> In "k_y" names.
Hypothesis swept_k_z : isIterable k_z = true -> In "k_z" names.

(** The bundle a grid point is evaluated on gives a number for each field
    the model reads. *)
Lemma haldane_fields_ready (x : namespace) (values : dict Q) (name : string) :
  map fst values = names ->
  (forall name, ~ In name names -> dict_get x name = dict_get d name) ->
  In name haldane_fields ->
  exists v, getattr (dict_update x (point_fields values)) name = Ok v.
Proof.
  intros Hkeys Hx Hname. unfold getattr. rewrite dict_get_update.
  destruct (in_dec string_dec name names) as [Hin|Hout].
  - rewrite <- Hkeys in Hin.
    destruct (point_fields_scalar values name Hin) as [v ->]. eauto.
  - assert (dict_get (rev (point_fields values)) name = None) as ->.
    { apply dict_get_None. rewrite map_rev, point_fields_keys, Hkeys.
      intros Hin. apply Hout. apply in_rev. assumption. }
    rewrite (Hx name Hout).
    destruct (unswept_field_scalar d name (fields_present name Hname))
      as [v ->]; [|eauto].
    destruct (holds_sequence d name) eqn:E; [|reflexivity].
    exfalso. apply Hout. apply swept_fields. assumption.
Qed.

Lemma haldane_point_total (h : heap) (x : namespace) (pt : list Q) :
  length pt = length names ->
  (forall name, ~ In name names -> dict_get x name = dict_get d name) ->
  exists H,
    hamiltonian syst mtl (length h) k_x k_y k_z (combine names pt) (h ++ [x])
    = (h ++ [dict_update x (point_fields (combine names pt))], Ok H)
    /\ square n H.
Proof.
  intros Hlen Hx.
  pose proof (combine_keys names pt Hlen) as Hkeys.
  set (values := combine names pt) in *.
  set (x1 := dict_update x (point_fields values)).
  destruct (haldane_fields_ready x values "m" Hkeys Hx) as [m Hm];
    [simpl; auto|].
  destruct (haldane_fields_ready x values "t" Hkeys Hx) as [t Ht];
    [simpl; auto|].
  destruct (haldane_fields_ready x values "t_2" Hkeys Hx) as [t2 Ht2];
    [simpl; auto|].
  fold x1 in Hm, Ht, Ht2.
  destruct (values_get_total values "k_x" k_x) as [kx Ex];
    [rewrite Hkeys; assumption|].
  destruct (values_get_total values "k_y" k_y) as [ky Ey];
    [rewrite Hkeys; assumption|].
  destruct (values_get_total values "k_z" k_z) as [kz Ez];
    [rewrite Hkeys; assumption|].
  destruct (mtl_total [kx; ky; kz] eq_refl) as [k Ek].
  destruct (wrapped_hamiltonian_total cis cross_section b x1 k m t t2
              Hm Ht Ht2) as [H EH].
  exists H. split.
  - unfold hamiltonian, bind, update_dict, lift, read_dict.
    rewrite nth_error_snoc, heap_write_snoc.
    fold (point_fields values). fold x1.
    rewrite Ex, Ey, Ez, Ek, nth_error_snoc.
    change (hamiltonian_submatrix syst x1 k)
      with (wrapped_hamiltonian cis cross_section b x1 k).
    rewrite EH. reflexivity.
  - apply (wrapped_hamiltonian_hermitian cis cross_section b x1 k H EH).
Qed.

End HaldaneSweep.

(** Evaluation of the model at a fixed point, all fields being numbers. *)
Lemma haldane_fixed_total (cis : Q -> C)
    (cross_section : shape_fn -> Symmetry -> Geometry) (b : Builder)
    (mtl : list Q -> outcome (list Q)) (pars : ref) (d : namespace)
    (k_x k_y k_z : value) (return_grid : bool) (h : heap) :
  (forall k, length k = 3 -> exists k', mtl k = Ok k') ->
  (forall name, In name haldane_fields -> dict_get d name <> None) ->
  (forall name, holds_sequence d name = false) ->
  isIterable k_x = false -> isIterable k_y = false -> isIterable k_z = false ->
  exists arr,
    snd (evaluate_grid (finalized cis cross_section b) mtl pars d []
                       k_x k_y k_z return_grid h)
    = Ok (arr, if return_grid then Some [] else None)
    /\ shape arr = [1; norbs cross_section b; norbs cross_section b]
    /\ length (data arr) = fold_right Nat.mul 1 (shape arr).
Proof.
  intros Hmtl Hfields Hseq Hkx Hky Hkz.
  destruct k_x as [x|xs]; [|discriminate].
  destruct k_y as [y|ys]; [|discriminate].
  destruct k_z as [z|zs]; [|discriminate].
  destruct (Hmtl [x; y; z] eq_refl) as [k Ek].
  assert (forall name, In name haldane_fields ->
                       exists v, getattr d name = Ok v) as Hget.
  { intros name Hname. unfold getattr.
    destruct (unswept_field_scalar d name (Hfields name Hname) (Hseq name))
      as [v ->]. eauto. }
  destruct (Hget "m") as [m Em]; [simpl; auto|].
  destruct (Hget "t") as [t Et]; [simpl; auto|].
  destruct (Hget "t_2") as [t2 Et2]; [simpl; auto|].
  destruct (wrapped_hamiltonian_total cis cross_section b d k m t t2
              Em Et Et2) as [H EH].
  destruct (wrapped_hamiltonian_hermitian cis cross_section b d k H EH)
    as [Hsq _].
  unfold evaluate_grid, bind, lift, ret. simpl as_scalar. cbv beta iota.
  rewrite Ek.
  change (hamiltonian_submatrix (finalized cis cross_section b) d k)
    with (wrapped_hamiltonian cis cross_section b d k).
  rewrite EH. eexists. split; [reflexivity|]. simpl shape. simpl data.
  rewrite (matrix_shape_square _ H Hsq), (concat_square_length _ H Hsq).
  split; [reflexivity|]. simpl. lia.
Qed.

(** Evaluation of the model over a grid. *)
Lemma haldane_grid_total (cis : Q -> C)
    (cross_section : shape_fn -> Symmetry -> Geometry) (b : Builder)
    (mtl : list Q -> outcome (list Q)) (h : heap) (d : namespace)
    (k_x k_y k_z : value) (return_grid : bool) (changing : dict (list Q)) :
  changing <> [] ->
  (forall k, length k = 3 -> exists k', mtl k = Ok k') ->
  (forall name, In name haldane_fields -> dict_get d name <> None) ->
  (forall name, holds_sequence d name = true -> In name (map fst changing)) ->
  (isIterable k_x = true -> In "k_x" (map fst changing)) ->
  (isIterable k_y = true -> In "k_y" (map fst changing)) ->
  (isIterable k_z = true -> In "k_z" (map fst changing)) ->
  Forall (fun a => snd a <> []) changing ->
  exists arr,
    snd (evaluate_grid (finalized cis cross_section b) mtl (length h) d
                       changing k_x k_y k_z return_grid (h ++ [d]))
    = Ok (arr, if return_grid then Some (sorted changing) else None)
    /\ shape arr
       = map (fun a => length (snd a)) (sorted changing)
         ++ [norbs cross_section b; norbs cross_section b]
    /\ length (data arr) = fold_right Nat.mul 1 (shape arr).
Proof.
  intros Hne Hmtl Hfields Hseq Hkx Hky Hkz Hnonempty.
  set (syst := finalized cis cross_section b).
  set (n := norbs cross_section b).
  set (names := map fst (sorted changing)).
  set (values := map snd (sorted changing)).
  rewrite (evaluate_grid_sorted syst mtl (length h) d changing names values)
    by (assumption || reflexivity).
  destruct (mapM_total
              (fun hp => exists x, hp = h ++ [x]
                                   /\ forall name, ~ In name names ->
                                                   dict_get x name
                                                   = dict_get d name)
              (square n)
              (fun value => hamiltonian syst mtl (length h) k_x k_y k_z
                                        (combine names value))
              (product values))
    with (h := h ++ [d]) as [h' [Hs [Em [Hlen [Hall _]]]]].
  { intros pt hp Hpt [x [-> Hx]].
    assert (length pt = length names) as Hpl.
    { rewrite (product_point_length values pt Hpt).
      unfold names, values. rewrite !length_map. reflexivity. }
    destruct (haldane_point_total cis cross_section b mtl d k_x k_y k_z names
                Hmtl Hfields
                (fun name E => sorted_keys changing name (Hseq name E))
                (fun E => sorted_keys changing "k_x" (Hkx E))
                (fun E => sorted_keys changing "k_y" (Hky E))
                (fun E => sorted_keys changing "k_z" (Hkz E))
                h x pt Hpl Hx) as [H [EH Hsq]].
    exists (h ++ [dict_update x (point_fields (combine names pt))]), H.
    split; [exact EH|]. split; [|exact Hsq].
    eexists. split; [reflexivity|].
    intros name Hout.
    rewrite dict_get_update_other
      by (rewrite (combine_keys names pt Hpl); exact Hout).
    apply Hx. assumption. }
  { exists d. split; [reflexivity|]. intros; reflexivity. }
  unfold bind at 1. rewrite Em.
  assert (product values <> []) as Hpts.
  { apply product_nonempty. unfold values.
    apply Forall_forall. intros xs Hxs.
    apply in_map_iff in Hxs as [a [<- Ha]].
    rewrite Forall_forall in Hnonempty.
    exact (Hnonempty a (proj1 (sorted_In a changing) Ha)). }
  destruct Hs as [|H0 Hs].
  { destruct (product values); [contradiction|discriminate]. }
  unfold bind, ret, lift, np_array_reshape.
  inversion Hall as [|? ? Hsq0 _]; subst.
  rewrite (matrix_shape_square n H0 Hsq0).
  rewrite (concat_blocks_length n (H0 :: Hs) Hall), Hlen, product_length.
  assert (fold_right Nat.mul 1 (map (@length Q) values ++ [n; n])
          = fold_right Nat.mul 1 (map (@length Q) values) * (n * n)) as Hsize.
  { rewrite fold_right_mul_app. simpl. ring. }
  rewrite Hsize, Nat.eqb_refl.
  eexists. split; [|split].
  - change (combine names values)
      with (combine (map fst (sorted changing)) (map snd (sorted changing))).
    rewrite combine_fst_snd. reflexivity.
  - cbn [shape]. unfold values. rewrite map_map. reflexivity.
  - cbn [shape data].
    rewrite (concat_blocks_length n (H0 :: Hs) Hall), Hlen,
      product_length, Hsize. reflexivity.
Qed.

(** X15.  A model built on kwant by [haldaneModel] can always be evaluated
    over a grid: when the bundle has the fields [m], [t] and [t_2] (numbers
    or sequences), no swept sequence is empty, no field has a reserved name
    and the momentum mapping is defined, [hamiltonian_array] returns an
    array whose shape is the lengths of the axes in the order of their names
    (a single axis of length one when nothing is swept) followed by (n, n)
    for the n orbitals of the model, holding as many entries as the shape
    says, together with the sorted grid when it is asked for. *)
Theorem haldane_sweep_total (cis : Q -> C)
    (cross_section : shape_fn -> Symmetry -> Geometry) (b : Builder)
    (mtl : list Q -> outcome (list Q)) (h : heap) (p : ref) (d : namespace)
    (k_x k_y k_z : value) (return_grid : bool) (changing : dict (list Q)) :
  nth_error h p = Some d ->
  make_momentum_to_lattice (builder_symmetry b) = Ok mtl ->
  (forall k, length k = 3 -> exists k', mtl k = Ok k') ->
  add_momenta [("k_x", k_x); ("k_y", k_y); ("k_z", k_z)] (changing_of_pars d)
  = Ok changing ->
  Forall (fun a => snd a <> []) changing ->
  (forall name, In name haldane_fields -> dict_get d name <> None) ->
  exists arr,
    snd (hamiltonian_array (finalized cis cross_section b) (Some p)
                           k_x k_y k_z return_grid h)
    = Ok (arr, if return_grid then Some (sorted changing) else None)
    /\ shape arr
       = match changing with
         | [] => [1]
         | _ :: _ => map (fun a => length (snd a)) (sorted changing)
         end ++ [norbs cross_section b; norbs cross_section b]
    /\ length (data arr) = fold_right Nat.mul 1 (shape arr).
Proof.
  intros Hp Hm Hmtl Hc Hnonempty Hfields.
  destruct (add_momenta_keys d k_x k_y k_z changing Hc)
    as [Hseq [Hkx [Hky Hkz]]].
  rewrite (hamiltonian_array_start (finalized cis cross_section b) h p d)
    by assumption.
  change (syst_symmetry (finalized cis cross_section b))
    with (builder_symmetry b).
  rewrite Hm, Hc.
  destruct changing as [|c changing].
  - apply haldane_fixed_total; try assumption.
    + intros name. destruct (holds_sequence d name) eqn:E; [|reflexivity].
      destruct (Hseq name E).
    + destruct (isIterable k_x); [destruct (Hkx eq_refl)|reflexivity].
    + destruct (isIterable k_y); [destruct (Hky eq_refl)|reflexivity].
    + destruct (isIterable k_z); [destruct (Hkz eq_refl)|reflexivity].
  - apply haldane_grid_total; try assumption. discriminate.
Qed.

(** For periods in the plane the momentum mapping is defined at every
    momentum [(k_x, k_y, k_z)]. *)
Lemma momentum_to_lattice_2_total (A : matrix) (k : list Q) :
  length A = 2 -> length k = 3 ->
  exists k', momentum_to_lattice_2 A 2 k = Ok k'.
Proof.
  intros HA Hk.
  destruct k as [|kx [|ky [|kz [|? ?]]]]; try discriminate.
  unfold momentum_to_lattice_2, np_linalg_lstsq.
  rewrite HA. simpl firstn. simpl length. simpl negb. cbv iota.
  destruct (np_linalg_inv _); simpl; eauto.
Qed.

Lemma planar_mapping_total (a1 a2 : vec) (A : matrix) :
  length a1 = 2 ->
  projection_matrix a1 a2 = Ok A ->
  make_momentum_to_lattice (Translational2 a1 a2)
  = Ok (momentum_to_lattice_2 A 2)
  /\ forall k, length k = 3 -> exists k', momentum_to_lattice_2 A 2 k = Ok k'.
Proof.
  intros Hlen HA. split.
  - rewrite make_momentum_to_lattice_2, HA, Hlen. reflexivity.
  - intros k Hk. apply momentum_to_lattice_2_total; [|assumption].
    rewrite (projection_matrix_rows a1 a2 A HA). assumption.
Qed.

(** The projection matrix of the default honeycomb periods. *)
Definition bulk_projection : matrix :=
  match projection_matrix [1; 0]%Q [1 # 2; np_sqrt3 / 2]%Q with
  | Ok A => A
  | Raise _ => []
  end.

Lemma bulk_projection_matrix :
  projection_matrix [1; 0]%Q [1 # 2; np_sqrt3 / 2]%Q = Ok bulk_projection.
Proof. vm_compute. reflexivity. Qed.

Lemma haldane_sweep_total_witness :
  exists arr,
    snd (hamiltonian_array
           (finalized cis_cayley (strip_cross_section 2) bulk_builder)
           (Some 0) (Sequence [0; 1; 2]%Q) (Scalar 0) (Scalar 0) true
           [sweep_bundle])
    = Ok (arr, Some (sorted [("m", [0; 1 # 4]%Q); ("k_x", [0; 1; 2]%Q)]))
    /\ shape arr
       = map (fun a => length (snd a))
             (sorted [("m", [0; 1 # 4]%Q); ("k_x", [0; 1; 2]%Q)])
         ++ [2; 2]
    /\ length (data arr) = fold_right Nat.mul 1 (shape arr).
Proof.
  destruct (planar_mapping_total [1; 0]%Q [1 # 2; np_sqrt3 / 2]%Q
              bulk_projection eq_refl bulk_projection_matrix)
    as [Hmake Htotal].
  apply (haldane_sweep_total cis_cayley (strip_cross_section 2) bulk_builder
           (momentum_to_lattice_2 bulk_projection 2) [sweep_bundle] 0
           sweep_bundle (Sequence [0; 1; 2]%Q) (Scalar 0) (Scalar 0) true
           [("m", [0; 1 # 4]%Q); ("k_x", [0; 1; 2]%Q)]
           eq_refl Hmake Htotal eq_refl).
  - repeat constructor; discriminate.
  - intros name [<-|[<-|[<-|[]]]]; discriminate.
Defined.

(** ** [spectrum] over a square momentum grid *)




(** ** The bulk Hamiltonian at [t_2 = 0] *)

(** X17.  For the bulk honeycomb model and a bundle with [t_2 = 0], at
    every momentum the diagonal of the Hamiltonian is the onsite term alone:
    [m] on sublattice A and [-m] on sublattice B, with no imaginary part. *)
Theorem bulk_diagonal_is_mass (cis : Q -> C)
    (cross_section : shape_fn -> Symmetry -> Geometry) (d : namespace)
    (k1 k2 m t : Q) (H : cmatrix) :
  getattr d "m" = Ok m ->
  getattr d "t" = Ok t ->
  getattr d "t_2" = Ok 0%Q ->
  hamiltonian_submatrix (finalized cis cross_section bulk_builder) d [k1; k2]
  = Ok H ->
  (Re (nth 0 (nth 0 H []) C0) == m)%Q
  /\ (Im (nth 0 (nth 0 H []) C0) == 0)%Q
  /\ (Re (nth 1 (nth 1 H []) C0) == - m)%Q
  /\ (Im (nth 1 (nth 1 H []) C0) == 0)%Q.
Proof.
  intros Hm Ht Ht2 HH.
  change (hamiltonian_submatrix (finalized cis cross_section bulk_builder)
                                d [k1; k2])
    with (wrapped_hamiltonian cis cross_section bulk_builder d [k1; k2]) in HH.
  unfold wrapped_hamiltonian, obind in HH.
  change (geometry cross_section bulk_builder) with bulk_geometry in HH.
  set (bs := bonds bulk_geometry (builder_hoppings bulk_builder)) in HH.
  vm_compute in bs. subst bs.
  cbn [fd_sites bulk_geometry omap fst length] in HH.
  unfold onsite, bond_value, hopping_value, obind in HH.
  cbn [bond_fn bond_a bond_b bond_domain] in HH.
  rewrite Hm, Ht, Ht2 in HH.
  cbn [family_eqb Nat.eqb orb existsb negb Z.eqb] in HH.
  injection HH as <-.
  cbv [assemble entry_terms bond_terms Csum Cadd Cmul Cconj ofQ Ci C0 Re Im
       nth seq map flat_map fold_left app Nat.eqb andb].
  repeat split; ring.
Qed.

Lemma bulk_diagonal_is_mass_witness :
  exists H,
    hamiltonian_submatrix
      (finalized cis_cayley (strip_cross_section 2) bulk_builder)
      fixed_bundle [1; 2]%Q = Ok H
    /\ (Re (nth 0 (nth 0 H []) C0) == 1 # 4)%Q
    /\ (Im (nth 0 (nth 0 H []) C0) == 0)%Q
    /\ (Re (nth 1 (nth 1 H []) C0) == - (1 # 4))%Q
    /\ (Im (nth 1 (nth 1 H []) C0) == 0)%Q.
Proof.
  destruct (wrapped_hamiltonian_total cis_cayley (strip_cross_section 2)
              bulk_builder fixed_bundle [1; 2]%Q (1 # 4) 1 0
              eq_refl eq_refl eq_refl) as [H EH].
  exists H. split; [exact EH|].
  exact (bulk_diagonal_is_mass cis_cayley (strip_cross_section 2)
           fixed_bundle 1 2 (1 # 4) 1 H eq_refl eq_refl eq_refl EH).
Defined.

(** ** [spectrum] with [res = 0] *)

Lemma dict_set_In_same {V} (d : dict V) (key : string) (v : V) :
  dict_mem d key = false -> In (key, v) (dict_set d key v).
Proof.
  unfold dict_mem. induction d as [|[k w] d IH]; simpl.
  - intros _. left. reflexivity.
  - destruct (String.eqb k key); [discriminate|].
    intros Hd. right. apply IH. assumption.
Qed.

Lemma dict_set_In_other {V} (d : dict V) (key key' : string) (v v' : V) :
  String.eqb key key' = false ->
  In (key', v') d -> In (key', v') (dict_set d key v).
Proof.
  intros Hne. induction d as [|[k w] d IH]; simpl; [contradiction|].
  intros [E|Hin].
  - injection E as -> ->. rewrite String.eqb_sym, Hne. left. reflexivity.
  - destruct (String.eqb k key); right; auto.
Qed.

Lemma with_axis_In_other (key key' : string) (v : value) (xs : list Q)
    (changing : dict (list Q)) :
  String.eqb key key' = false ->
  In (key', xs) changing -> In (key', xs) (with_axis key v changing).
Proof.
  intros Hne Hin. destruct v; simpl; [assumption|].
  apply dict_set_In_other; assumption.
Qed.

Lemma evaluate_grid_empty_axis (syst : System)
    (mtl : list Q -> outcome (list Q)) (pars : ref) (d : namespace)
    (changing : dict (list Q)) (k_x k_y k_z : value) (return_grid : bool)
    (h : heap) (key : string) :
  In (key, []) changing ->
  evaluate_grid syst mtl pars d changing k_x k_y k_z return_grid h
  = (h, Raise IndexError).
Proof.
  intros Hin.
  rewrite (evaluate_grid_sorted syst mtl pars d changing
             (map fst (sorted changing)) (map snd (sorted changing)))
    by (reflexivity || (intros E; rewrite E in Hin; exact Hin)).
  rewrite product_empty_axis; [reflexivity|].
  apply in_map_iff. exists (key, []). split; [reflexivity|].
  apply sorted_In. assumption.
Qed.

(** X18.  With [res = 0] a momentum left at [None] becomes an empty grid:
    on a system with at least one translational direction, a call of
    [spectrum] that leaves [k_x] out raises [IndexError], provided the
    momentum mapping can be built and no field of the bundle has a reserved
    name. *)
Theorem spectrum_zero_resolution (np_linalg_eigvalsh : ndarray -> rarray)
    (syst : System) (h : heap) (p : option ref) (d : namespace)
    (k_y k_z : option value) (return_energies : bool)
    (mtl : list Q -> outcome (list Q)) :
  0 < num_directions (syst_symmetry syst) ->
  bundle_of h p = Some d ->
  make_momentum_to_lattice (syst_symmetry syst) = Ok mtl ->
  (forall name, In name reserved_names -> holds_sequence d name = false) ->
  snd (spectrum np_linalg_eigvalsh syst p None k_y k_z 0 return_energies h)
  = Raise IndexError.
Proof.
  intros Hdim Hp Hm Hnames.
  rewrite spectrum_unfold.
  assert (spectrum_momentum (num_directions (syst_symmetry syst)) 0 0 None
          = Sequence []) as ->.
  { unfold spectrum_momentum. apply Nat.ltb_lt in Hdim. rewrite Hdim.
    reflexivity. }
  generalize (spectrum_momentum (num_directions (syst_symmetry syst)) 0 1 k_y)
    as ky.
  generalize (spectrum_momentum (num_directions (syst_symmetry syst)) 0 2 k_z)
    as kz.
  intros kz ky.
  assert (forall h0 q,
             nth_error h0 q = Some d ->
             snd (hamiltonian_array syst (Some q) (Sequence []) ky kz true h0)
             = Raise IndexError) as G.
  { intros h0 q Hq.
    rewrite (hamiltonian_array_start syst h0 q d) by assumption.
    rewrite Hm, add_momenta_reserved, !changing_of_pars_mem.
    rewrite (Hnames "k_x"), (Hnames "k_y"), (Hnames "k_z")
      by (simpl; auto).
    rewrite (evaluate_grid_empty_axis syst mtl (length h0) d _ _ _ _ true
               (h0 ++ [d]) "k_x"); [reflexivity|].
    do 2 (apply with_axis_In_other; [reflexivity|]).
    apply dict_set_In_same.
    rewrite changing_of_pars_mem. apply Hnames. simpl. auto. }
  destruct p as [q|]; simpl in Hp.
  - exact (f_equal (spectrum_branch np_linalg_eigvalsh return_energies)
                   (G h q Hp)).
  - injection Hp as <-. rewrite hamiltonian_array_None.
    exact (f_equal (spectrum_branch np_linalg_eigvalsh return_energies)
                   (G (h ++ [[]]) (length h) (nth_error_snoc h []))).
Qed.

Lemma spectrum_zero_resolution_witness :
  snd (spectrum eigvalsh_diagonal (finalize haldane_zigzag) (Some 0)
                None None None 0 true [fixed_bundle])
  = Raise IndexError.
Proof.
  apply (spectrum_zero_resolution eigvalsh_diagonal (finalize haldane_zigzag)
           [fixed_bundle] (Some 0) fixed_bundle None None true
           (momentum_to_lattice_1 1)).
  - apply Nat.ltb_lt. reflexivity.
  - reflexivity.
  - reflexivity.
  - intros name [<-|[<-|[<-|[]]]]; reflexivity.
Defined.

(** ** [graphineHaldaneModel.py]: the tables written for each band

    [func1] and [func2] of [paralelFunc] are built by the same comprehension
    for the bands 0 and 1:
    [[data[int(j)][int(i)][band] for i in index1] for j in index2], where
    [index1] counts up to [len(data)] and [index2] up to [len(data[0])]. *)

Definition energies_at (data : list (list (list Q))) (j i band : nat)
  : outcome Q :=
  match nth_error data j with
  | None => Raise IndexError
  | Some row =>
      match nth_error row i with
      | None => Raise IndexError
      | Some cell =>
          match nth_error cell band with
          | None => Raise IndexError
          | Some e => Ok e
          end
      end
  end.

Definition band_table (data : list (list (list Q))) (band : nat)
  : outcome (list (list Q)) :=
  let dim1 := length data in
  match data with
  | [] => Raise IndexError
  | row0 :: _ =>
      let dim2 := length row0 in
      omap (fun j => omap (fun i => energies_at data j i band) (seq 0 dim1))
           (seq 0 dim2)
  end.

Lemma omap_map {A B} (f : A -> outcome B) (g : A -> B) (l : list A) :
  (forall a, In a l -> f a = Ok (g a)) -> omap f l = Ok (map g l).
Proof.
  induction l as [|a l IH]; simpl; intros Hf; [reflexivity|].
  rewrite (Hf a (or_introl eq_refl)).
  rewrite IH by (intros; apply Hf; right; assumption). reflexivity.
Qed.

Lemma omap_raises {A B} (f : A -> outcome B) (l : list A) (e0 : exn) :
  (forall a e, f a = Raise e -> e = e0) ->
  (exists a, In a l /\ exists e, f a = Raise e) ->
  omap f l = Raise e0.
Proof.
  intros Honly. induction l as [|a l IH]; simpl; intros [a0 [Hin [e He]]];
    [contradiction|].
  destruct (f a) as [b|e'] eqn:Ea.
  - destruct Hin as [->|Hin]; [congruence|].
    rewrite IH by eauto. reflexivity.
  - rewrite (Honly a e' Ea). reflexivity.
Qed.

Lemma map_nth_seq {A B} (F : A -> B) (l : list A) (d : A) :
  map (fun i => F (nth i l d)) (seq 0 (length l)) = map F l.
Proof.
  induction l as [|a l IH]; simpl; [reflexivity|].
  f_equal. rewrite <- seq_shift, map_map. exact IH.
Qed.

Lemma energies_at_only_IndexError (data : list (list (list Q)))
    (j i band : nat) (e : exn) :
  energies_at data j i band = Raise e -> e = IndexError.
Proof.
  unfold energies_at.
  destruct (nth_error data j) as [row|]; [|congruence].
  destruct (nth_error row i) as [cell|]; [|congruence].
  destruct (nth_error cell band); congruence.
Qed.

(** X19.  The tables [func1] and [func2] that [paralelFunc] writes: when
    the energies array is square in its two leading axes, the table of a
    band is that band of the array, entry by entry; when it has N rows of M
    columns with M different from N (and M not 0), building the table
    raises [IndexError]. *)
Theorem band_table_square_only (data : list (list (list Q)))
    (band N M : nat) :
  length data = N ->
  0 < N ->
  Forall (fun row => length row = M) data ->
  Forall (Forall (fun cell => band < length cell)) data ->
  (M = N ->
   band_table data band = Ok (map (map (fun cell => nth band cell 0%Q)) data))
  /\ (M <> N -> 0 < M -> band_table data band = Raise IndexError).
Proof.
  intros HN Hpos Hrows Hcells.
  destruct data as [|row0 data'] eqn:Edata; [simpl in HN; lia|].
  rewrite <- Edata in *. clear Edata.
  assert (band_table data band
          = omap (fun j => omap (fun i => energies_at data j i band)
                                (seq 0 N)) (seq 0 M)) as ->.
  { unfold band_table. rewrite HN.
    destruct data as [|r0 rest]; [simpl in HN; lia|].
    inversion Hrows; subst. reflexivity. }
  rewrite Forall_forall in Hrows, Hcells.
  assert (forall j i, j < N -> i < M ->
                      energies_at data j i band
                      = Ok (nth band (nth i (nth j data []) []) 0%Q)) as Hok.
  { intros j i Hj Hi. unfold energies_at.
    assert (In (nth j data []) data) as Hrow by (apply nth_In; lia).
    rewrite (nth_error_nth' data [] ) by lia.
    pose proof (Hrows _ Hrow) as Hlen.
    assert (In (nth i (nth j data []) []) (nth j data [])) as Hcell
        by (apply nth_In; lia).
    rewrite (nth_error_nth' (nth j data []) []) by lia.
    pose proof (Hcells _ Hrow) as Hc. rewrite Forall_forall in Hc.
    rewrite (nth_error_nth' _ 0%Q) by (apply Hc; assumption).
    reflexivity. }
  split.
  - intros ->.
    rewrite (omap_map _ (fun j => map (fun i => nth band (nth i (nth j data []) [])
                                                   0%Q) (seq 0 N))).
    + f_equal.
      set (F := fun row : list (list Q) =>
                  map (fun i => nth band (nth i row []) 0%Q) (seq 0 N)).
      change (map (fun j => F (nth j data [])) (seq 0 N)
              = map (map (fun cell => nth band cell 0%Q)) data).
      rewrite <- HN, (map_nth_seq F data []).
      apply map_ext_in. intros row Hrow. unfold F.
      rewrite <- (Hrows row Hrow).
      apply (map_nth_seq (fun cell => nth band cell 0%Q) row []).
    + intros j Hj. apply in_seq in Hj.
      apply omap_map. intros i Hi. apply in_seq in Hi.
      apply Hok; lia.
  - intros Hne HM.
    apply omap_raises.
    + intros j e Hj.
      destruct (omap _ (seq 0 N)) eqn:E in Hj; [discriminate|].
      injection Hj as <-.
      clear -E. revert E. generalize (seq 0 N) as l.
      induction l as [|i l IH]; simpl; [discriminate|].
      destruct (energies_at data j i band) eqn:Ei.
      * destruct (omap _ l); [discriminate|]. intros E. apply IH.
        congruence.
      * intros E. injection E as <-.
        apply (energies_at_only_IndexError _ _ _ _ _ Ei).
    + destruct (Nat.lt_ge_cases M N) as [Hlt|Hge].
      * exists 0. split; [apply in_seq; lia|].
        exists IndexError. apply omap_raises.
        { intros i e. apply energies_at_only_IndexError. }
        exists M. split; [apply in_seq; lia|].
        exists IndexError. unfold energies_at.
        rewrite (nth_error_nth' data []) by lia.
        assert (nth_error (nth 0 data []) M = None) as ->; [|reflexivity].
        apply nth_error_None. rewrite (Hrows (nth 0 data [])); [lia|].
        apply nth_In. lia.
      * exists N. split; [apply in_seq; lia|].
        exists IndexError. apply omap_raises.
        { intros i e. apply energies_at_only_IndexError. }
        exists 0. split; [apply in_seq; lia|].
        exists IndexError. unfold energies_at.
        assert (nth_error data N = None) as ->; [|reflexivity].
        apply nth_error_None. lia.
Qed.

Lemma band_table_square_only_witness :
  band_table [[[1; 2]; [3; 4]]; [[5; 6]; [7; 8]]]%Q 1
  = Ok [[2; 4]; [6; 8]]%Q.
Proof.
  refine (proj1 (band_table_square_only
                   [[[1; 2]; [3; 4]]; [[5; 6]; [7; 8]]]%Q 1 2 2
                   eq_refl _ _ _) eq_refl).
  - lia.
  - repeat constructor.
  - repeat constructor.
Defined.

(** ** C7: calls on a system with one translational direction *)













